(** * canwarp: cylindrical-to-spherical image remapping

    A shallow embedding of [canwarp.py] and the proofs of its specification.

    Conventions of the embedding.

    - The file is Python 2 code: every division that is meant to be a real
      division is written with an explicit [float(...)] cast
      ([float(x) / d], [float(t) / t_max]), and the two centre computations
      [img_in.shape[1] / 2] and [img_in.shape[0] / 2] divide two integers,
      which in Python 2 is floor division.  Python numbers are therefore
      modelled by [number], an integer or a float, and [py_div] follows the
      Python 2 rules.
    - Floating-point numbers are idealised as real numbers: [math.pi] is
      [PI], [math.cos], [math.tan] and [math.atan] are the functions of the
      standard library of reals.  [math.tan] never raises on a finite
      argument, so it is modelled by the total function [tan]; the only
      cell whose pixel is computed below at a pole of the tangent is the
      corner cell, where the tangent is multiplied by [cos theta = 0]
      (lemma [corner_row]), so that its value there is immaterial.
    - A division by zero raises [ZeroDivisionError], an index out of range
      raises [IndexError]; fallible code lives in the [result] monad.
    - A numpy image of shape (H, W, 3) and dtype uint8 is a list of H rows
      of W pixels, a pixel being a triple of integers. *)

From Stdlib Require Import String.
From Stdlib Require Import Reals ZArith List Bool Lra Lia.
Import ListNotations.

Local Open Scope Z_scope.

(** ** Exceptions and the result monad *)

Inductive exn : Type :=
| ZeroDivisionError
| IndexError
| AttributeError.

Inductive result (A : Type) : Type :=
| Ok (a : A)
| Raise (e : exn).

Arguments Ok {A} a.
Arguments Raise {A} e.

Definition bind {A B : Type} (c : result A) (k : A -> result B) : result B :=
  match c with
  | Ok a => k a
  | Raise e => Raise e
  end.

Notation "x <- c ;; k" := (bind c (fun x => k))
  (at level 61, c at next level, right associativity).

(** [for x in xs: s = body(x, s)], stopping at the first exception. *)
Fixpoint for_each {A S : Type} (xs : list A) (body : A -> S -> result S)
  (s : S) : result S :=
  match xs with
  | [] => Ok s
  | x :: xs' => s' <- body x s ;; for_each xs' body s'
  end.

(** ** Python numbers *)

Inductive number : Type :=
| PyInt (n : Z)
| PyFloat (r : R).

Definition to_float (a : number) : R :=
  match a with
  | PyInt n => IZR n
  | PyFloat r => r
  end.

(** Float division [a / b]. *)
Definition fdiv (a b : R) : result R :=
  if Req_dec_T b 0 then Raise ZeroDivisionError else Ok (a / b)%R.

(** Python 2 [a / b]: floor division on two integers, float division as
    soon as one operand is a float. *)
Definition py_div (a b : number) : result number :=
  match a, b with
  | PyInt x, PyInt y =>
      if y =? 0 then Raise ZeroDivisionError else Ok (PyInt (x / y))
  | _, _ => q <- fdiv (to_float a) (to_float b) ;; Ok (PyFloat q)
  end.

(** [a <= b] and [a > b] on numbers. *)
Definition py_le (a b : number) : bool :=
  match a, b with
  | PyInt x, PyInt y => x <=? y
  | _, _ => if Rle_dec (to_float a) (to_float b) then true else false
  end.

Definition py_gt (a b : number) : bool :=
  match a, b with
  | PyInt x, PyInt y => y <? x
  | _, _ => if Rlt_dec (to_float b) (to_float a) then true else false
  end.

(** [int(r)] on a float: truncation toward zero. *)
Definition py_int (r : R) : Z :=
  if Rle_dec 0 r then Int_part r else - Int_part (- r).

(** [range(n)] and [x in xs]. *)
Definition range (n : Z) : list Z := map Z.of_nat (seq 0 (Z.to_nat n)).

Definition py_in (x : Z) (xs : list Z) : bool := existsb (Z.eqb x) xs.

(** ** Images *)

Definition pixel : Type := (Z * Z * Z)%type.

Definition black : pixel := (0, 0, 0).
Definition white : pixel := (255, 255, 255).

Definition ndarray : Type := list (list pixel).

Definition shape0 (a : ndarray) : Z := Z.of_nat (length a).

Definition shape1 (a : ndarray) : Z :=
  match a with
  | [] => 0
  | row :: _ => Z.of_nat (length row)
  end.

(** [np.zeros((rows, cols, 3), dtype='uint8')]. *)
Definition zeros (rows cols : Z) : ndarray :=
  repeat (repeat black (Z.to_nat cols)) (Z.to_nat rows).

(** An index into an axis of length [n]: a negative index counts from the
    end, anything outside [-n, n) raises. *)
Definition norm_index (n : nat) (i : Z) : result nat :=
  if (0 <=? i) && (i <? Z.of_nat n) then Ok (Z.to_nat i)
  else if (- Z.of_nat n <=? i) && (i <? 0) then Ok (Z.to_nat (i + Z.of_nat n))
  else Raise IndexError.

Fixpoint update {A : Type} (l : list A) (i : nat) (v : A) : list A :=
  match l, i with
  | [], _ => []
  | _ :: l', O => v :: l'
  | a :: l', S i' => a :: update l' i' v
  end.

Definition pix (a : ndarray) (i j : nat) : pixel := nth j (nth i a []) black.

Definition put (a : ndarray) (i j : nat) (v : pixel) : ndarray :=
  update a i (update (nth i a []) j v).

(** [a[i, j]]. *)
Definition getitem (a : ndarray) (i j : Z) : result pixel :=
  r <- norm_index (length a) i ;;
  c <- norm_index (length (nth r a [])) j ;;
  Ok (pix a r c).

(** [a[i, j] = v]. *)
Definition setitem (a : ndarray) (i j : Z) (v : pixel) : result ndarray :=
  r <- norm_index (length a) i ;;
  c <- norm_index (length (nth r a [])) j ;;
  Ok (put a r c v).

(** ** The coordinate converters *)

Definition cyl2sph (x y d : R) : result (R * R) :=
  theta <- fdiv x d ;;
  q <- fdiv y (cos theta) ;;
  q' <- fdiv q d ;;
  let phi := atan q' in
  Ok (theta, phi).

Definition sph2cyl (theta phi d : R) : R * R :=
  (d * theta, d * tan phi * cos theta)%R.

(** ** The remapper *)

Definition theta_max : R := (PI / 2)%R.
Definition theta_min : R := (- theta_max)%R.
Definition phi_max : R := (PI / 2)%R.
Definition phi_min : R := (- phi_max)%R.

Definition x_center (img_in : ndarray) : Z := shape1 img_in / 2.
Definition y_center (img_in : ndarray) : Z := shape0 img_in / 2.

(** [d = img_in.shape[1] / coverage / math.pi]. *)
Definition diameter (img_in : ndarray) (coverage : number) : result R :=
  q <- py_div (PyInt (shape1 img_in)) coverage ;;
  d <- py_div q (PyFloat PI) ;;
  Ok (to_float d).

(** [theta = float(t) / t_max * (theta_max - theta_min) + theta_min]. *)
Definition cell_theta (t t_max : Z) : result R :=
  q <- fdiv (IZR t) (IZR t_max) ;;
  Ok (q * (theta_max - theta_min) + theta_min)%R.

(** [phi = float(p) / p_max * (phi_max - phi_min) + phi_min]. *)
Definition cell_phi (p p_max : Z) : result R :=
  q <- fdiv (IZR p) (IZR p_max) ;;
  Ok (q * (phi_max - phi_min) + phi_min)%R.

(** The body of the double loop, for the cell of column [t] and row [p]. *)
Definition sample (img_in : ndarray) (d : R) (xc yc t_max p_max : Z)
  (t p : Z) (img_out : ndarray) : result ndarray :=
  theta <- cell_theta t t_max ;;
  phi <- cell_phi p p_max ;;
  let cyl := sph2cyl theta phi d in
  let x := py_int (fst cyl + IZR xc) in
  let y := py_int (snd cyl + IZR yc) in
  if py_in x (range (shape1 img_in)) && py_in y (range (shape0 img_in))
  then v <- getitem img_in y x ;; setitem img_out p t v
  else Ok img_out.

Definition img_cyl2sph (img_in : ndarray) (coverage : number)
  : result ndarray :=
  let xc := x_center img_in in
  let yc := y_center img_in in
  d <- diameter img_in coverage ;;
  let t_max := shape1 img_in in
  let p_max := shape1 img_in in
  let img_out := zeros p_max t_max in
  for_each (range t_max)
    (fun t => for_each (range p_max)
                (fun p => sample img_in d xc yc t_max p_max t p))
    img_out.

(** ** The file driver

    The file system is a map from paths to images; [cv2.imread] returns
    [None] for a path that holds no image, on which [img_in.shape] raises. *)

Definition filesystem : Type := string -> option ndarray.

Definition imread (fs : filesystem) (path : string) : option ndarray := fs path.

Definition imwrite (fs : filesystem) (path : string) (img : ndarray)
  : filesystem :=
  fun p => if String.eqb p path then Some img else fs p.

Definition default_coverage : number := PyFloat (9 / 10).

Definition file_cyl2sph (fs : filesystem) (file_in file_out : string)
  (coverage : number) : result filesystem :=
  let coverage :=
    if py_le coverage (PyInt 0) || py_gt coverage (PyInt 1)
    then default_coverage else coverage in
  match imread fs file_in with
  | None => Raise AttributeError
  | Some img =>
      img2 <- img_cyl2sph img coverage ;;
      Ok (imwrite fs file_out img2)
  end.

(** ** Specification vocabulary *)

(** Every row of the image has the width the image reports. *)
Definition rectangular (a : ndarray) : Prop :=
  Forall (fun row => Z.of_nat (length row) = shape1 a) a.

Definition has_shape (a : ndarray) (h w : Z) : Prop :=
  shape0 a = h /\ Forall (fun row => Z.of_nat (length row) = w) a.

Definition uint8 (c : Z) : Prop := 0 <= c < 256.

Definition pixel_ok (v : pixel) : Prop :=
  let '(b, g, r) := v in uint8 b /\ uint8 g /\ uint8 r.

Definition image_ok (a : ndarray) : Prop := Forall (Forall pixel_ok) a.

Definition in_bounds (a : ndarray) (x y : Z) : bool :=
  (0 <=? x) && (x <? shape1 a) && ((0 <=? y) && (y <? shape0 a)).

(** The source coordinate computed for the output cell of column [t] and
    row [p] (lines 71 to 75 of the loop body). *)
Definition source_coord (img_in : ndarray) (d : R) (t p : Z)
  : result (Z * Z) :=
  theta <- cell_theta t (shape1 img_in) ;;
  phi <- cell_phi p (shape1 img_in) ;;
  let cyl := sph2cyl theta phi d in
  Ok (py_int (fst cyl + IZR (x_center img_in)),
      py_int (snd cyl + IZR (y_center img_in))).

(** Valid coverage: a number in (0, 1]. *)
Definition valid_coverage (c : number) : Prop :=
  (0 < to_float c <= 1)%R.

(** The pixel the loop body leaves in the output cell of column [t] and
    row [p], given the pixel [old] found there. *)
Definition cell_value (img_in : ndarray) (d : R) (t p : Z) (old : pixel)
  : pixel :=
  match source_coord img_in d t p with
  | Ok (x, y) =>
      if in_bounds img_in x y then pix img_in (Z.to_nat y) (Z.to_nat x)
      else old
  | Raise _ => old
  end.

(** The 4 x 4 all-white image of the concrete scenario. *)
Definition white4 : ndarray := repeat (repeat white 4%nat) 4%nat.

(** A colour transform applied to every pixel of an image. *)
Definition map_pixels (f : pixel -> pixel) (a : ndarray) : ndarray :=
  map (map f) a.

(** The same transform applied to the image a call returns, if any. *)
Definition map_result (f : pixel -> pixel) (r : result ndarray)
  : result ndarray :=
  match r with
  | Ok a => Ok (map_pixels f a)
  | Raise e => Raise e
  end.

(** A pixel that is black or occurs somewhere in the image [a]. *)
Definition black_or_from (a : ndarray) (v : pixel) : Prop :=
  v = black \/ In v (concat a).

(** ** Integer casts and ranges *)

Lemma Int_part_IZR (z : Z) : Int_part (IZR z) = z.
Proof.
  symmetry. apply Int_part_spec. lra.
Qed.

Lemma py_int_IZR (z : Z) : py_int (IZR z) = z.
Proof.
  unfold py_int. destruct (Rle_dec 0 (IZR z)).
  - apply Int_part_IZR.
  - rewrite <- opp_IZR, Int_part_IZR. lia.
Qed.

Lemma py_int_nonneg (r : R) (z : Z) :
  (0 <= r)%R -> (IZR z <= r < IZR z + 1)%R -> py_int r = z.
Proof.
  intros H0 Hz. unfold py_int. destruct (Rle_dec 0 r); [| contradiction].
  symmetry. apply Int_part_spec. lra.
Qed.

Lemma py_int_small (r : R) : (-1 < r < 1)%R -> py_int r = 0.
Proof.
  intros Hr. unfold py_int. destruct (Rle_dec 0 r).
  - symmetry. apply Int_part_spec. simpl. lra.
  - replace (Int_part (- r)) with 0; [reflexivity |].
    apply Int_part_spec. simpl. lra.
Qed.

Lemma in_range_seq (x : Z) (n : nat) :
  In x (map Z.of_nat (seq 0 n)) <-> 0 <= x < Z.of_nat n.
Proof.
  rewrite in_map_iff. split.
  - intros [k [<- Hk]]. apply in_seq in Hk. lia.
  - intros Hx. exists (Z.to_nat x). split; [lia |]. apply in_seq. lia.
Qed.

Lemma in_range (x n : Z) : In x (range n) <-> 0 <= x < n.
Proof.
  unfold range. rewrite in_range_seq. lia.
Qed.

Lemma py_in_spec (x : Z) (xs : list Z) : py_in x xs = true <-> In x xs.
Proof.
  unfold py_in. rewrite existsb_exists. split.
  - intros [y [Hy He]]. apply Z.eqb_eq in He. now subst.
  - intros Hx. exists x. split; [assumption | apply Z.eqb_refl].
Qed.

Lemma py_in_range (x n : Z) :
  py_in x (range n) = ((0 <=? x) && (x <? n)).
Proof.
  apply eq_true_iff_eq. rewrite py_in_spec, in_range, andb_true_iff.
  rewrite Z.leb_le, Z.ltb_lt. tauto.
Qed.

Lemma guard_in_bounds (a : ndarray) (x y : Z) :
  py_in x (range (shape1 a)) && py_in y (range (shape0 a)) = in_bounds a x y.
Proof.
  unfold in_bounds. now rewrite !py_in_range.
Qed.

(** ** Indexing *)

Lemma norm_index_in (n : nat) (i : Z) :
  0 <= i < Z.of_nat n -> norm_index n i = Ok (Z.to_nat i).
Proof.
  intros Hi. unfold norm_index.
  replace (0 <=? i) with true by (symmetry; apply Z.leb_le; lia).
  replace (i <? Z.of_nat n) with true by (symmetry; apply Z.ltb_lt; lia).
  reflexivity.
Qed.

Lemma update_length {A : Type} (l : list A) (i : nat) (v : A) :
  length (update l i v) = length l.
Proof.
  revert i. induction l as [| a l IH]; intros [| i]; simpl; auto.
Qed.

Lemma nth_update_same {A : Type} (l : list A) (i : nat) (v dflt : A) :
  (i < length l)%nat -> nth i (update l i v) dflt = v.
Proof.
  revert i. induction l as [| a l IH]; intros [| i] Hi; simpl in *;
    try lia; auto. apply IH. lia.
Qed.

Lemma nth_update_other {A : Type} (l : list A) (i j : nat) (v dflt : A) :
  i <> j -> nth j (update l i v) dflt = nth j l dflt.
Proof.
  revert i j. induction l as [| a l IH]; intros [| i] [| j] Hij; simpl;
    try congruence; auto.
Qed.

Lemma Forall_update {A : Type} (P : A -> Prop) (l : list A) (i : nat) (v : A) :
  Forall P l -> ((i < length l)%nat -> P v) -> Forall P (update l i v).
Proof.
  intros Hl. revert i.
  induction Hl as [| a l Ha Hl IH]; intros [| i] Hv; simpl in *; auto.
  - constructor; [apply Hv; lia | assumption].
  - constructor; [assumption | apply IH; intros; apply Hv; lia].
Qed.

Lemma Forall_nth_default {A : Type} (P : A -> Prop) (l : list A) (i : nat)
  (dflt : A) : Forall P l -> P dflt -> P (nth i l dflt).
Proof.
  intros Hl Hd. revert i.
  induction Hl as [| a l Ha Hl IH]; intros [| i]; simpl; auto.
Qed.

Lemma has_shape_row (a : ndarray) (h w : Z) (i : nat) :
  has_shape a h w -> (i < length a)%nat -> Z.of_nat (length (nth i a [])) = w.
Proof.
  intros [_ Hrows] Hi. rewrite Forall_forall in Hrows.
  apply Hrows. now apply nth_In.
Qed.

Lemma has_shape_length (a : ndarray) (h w : Z) :
  has_shape a h w -> Z.of_nat (length a) = h.
Proof. now intros [Hh _]. Qed.

Lemma rectangular_has_shape (a : ndarray) :
  rectangular a -> has_shape a (shape0 a) (shape1 a).
Proof. intros Hr. split; [reflexivity | exact Hr]. Qed.

Lemma has_shape_shape1 (a : ndarray) (h w : Z) :
  has_shape a h w -> 0 < h -> shape1 a = w.
Proof.
  intros [Hh Hrows] Hpos. destruct a as [| row a]; simpl in *.
  - unfold shape0 in Hh. simpl in Hh. lia.
  - now inversion Hrows.
Qed.

Lemma put_has_shape (a : ndarray) (h w : Z) (i j : nat) (v : pixel) :
  has_shape a h w -> has_shape (put a i j v) h w.
Proof.
  intros Ha. pose proof (has_shape_row a h w i Ha) as Hrow.
  destruct Ha as [Hh Hrows]. unfold put. split.
  - unfold shape0 in *. now rewrite update_length.
  - apply Forall_update; [assumption |].
    intros Hi. rewrite update_length. now apply Hrow.
Qed.

Lemma pix_put_same (a : ndarray) (i j : nat) (v : pixel) :
  (i < length a)%nat -> (j < length (nth i a []))%nat ->
  pix (put a i j v) i j = v.
Proof.
  intros Hi Hj. unfold pix, put.
  rewrite nth_update_same by assumption. now apply nth_update_same.
Qed.

Lemma pix_put_other (a : ndarray) (i j i' j' : nat) (v : pixel) :
  (i, j) <> (i', j') -> pix (put a i j v) i' j' = pix a i' j'.
Proof.
  intros Hne. unfold pix, put.
  destruct (Nat.eq_dec i i') as [<- | Hi].
  - destruct (Nat.lt_ge_cases i (length a)) as [Hlt | Hge].
    + rewrite nth_update_same by assumption.
      apply nth_update_other. congruence.
    + replace (update a i (update (nth i a []) j v)) with a; [reflexivity |].
      clear Hne. revert i Hge.
      induction a as [| row a IH]; intros [| i] Hge; simpl in *;
        try reflexivity; try lia.
      f_equal. apply IH. lia.
  - now rewrite nth_update_other.
Qed.

Lemma pix_zeros (h w : Z) (i j : nat) : pix (zeros h w) i j = black.
Proof.
  unfold pix, zeros.
  destruct (Nat.lt_ge_cases i (Z.to_nat h)) as [Hi | Hi].
  - rewrite nth_repeat_lt by assumption. apply nth_repeat.
  - rewrite (nth_overflow (repeat _ _) []) by (rewrite repeat_length; lia).
    now destruct j.
Qed.

Lemma zeros_has_shape (h w : Z) : 0 <= h -> 0 <= w -> has_shape (zeros h w) h w.
Proof.
  intros Hh Hw. unfold zeros. split.
  - unfold shape0. rewrite repeat_length. lia.
  - apply Forall_forall. intros row Hrow. apply repeat_spec in Hrow.
    subst row. rewrite repeat_length. lia.
Qed.

Lemma getitem_in (a : ndarray) (h w i j : Z) :
  has_shape a h w -> 0 <= i < h -> 0 <= j < w ->
  getitem a i j = Ok (pix a (Z.to_nat i) (Z.to_nat j)).
Proof.
  intros Ha Hi Hj. pose proof (has_shape_length a h w Ha) as Hlen.
  unfold getitem. rewrite norm_index_in by lia. simpl.
  rewrite norm_index_in; [reflexivity |].
  rewrite (has_shape_row a h w) by (assumption || lia). assumption.
Qed.

Lemma setitem_in (a : ndarray) (h w i j : Z) (v : pixel) :
  has_shape a h w -> 0 <= i < h -> 0 <= j < w ->
  setitem a i j v = Ok (put a (Z.to_nat i) (Z.to_nat j) v).
Proof.
  intros Ha Hi Hj. pose proof (has_shape_length a h w Ha) as Hlen.
  unfold setitem. rewrite norm_index_in by lia. simpl.
  rewrite norm_index_in; [reflexivity |].
  rewrite (has_shape_row a h w) by (assumption || lia). assumption.
Qed.

(** ** Loops *)

(** A loop rule for [for_each]: an invariant indexed by the elements
    already visited, every iteration being shown to return. *)
Lemma for_each_invariant {A S : Type} (Inv : list A -> S -> Prop)
  (body : A -> S -> result S) (xs : list A) (s : S) :
  Inv [] s ->
  (forall done x s1, In x xs -> Inv done s1 ->
     exists s2, body x s1 = Ok s2 /\ Inv (done ++ [x]) s2) ->
  exists s', for_each xs body s = Ok s' /\ Inv xs s'.
Proof.
  intros Hinit Hstep.
  assert (Hgen : forall todo done s1, (forall x, In x todo -> In x xs) ->
            Inv done s1 ->
            exists s', for_each todo body s1 = Ok s' /\ Inv (done ++ todo) s').
  { induction todo as [| x todo IH]; intros done s1 Hsub Hinv; simpl.
    - exists s1. now rewrite app_nil_r.
    - destruct (Hstep done x s1) as [s2 [Hb Hinv2]];
        [apply Hsub; now left | assumption |].
      rewrite Hb. simpl.
      destruct (IH (done ++ [x]) s2) as [s' [Hf Hinv']];
        [intros y Hy; apply Hsub; now right | assumption |].
      exists s'. split; [assumption |]. now rewrite <- app_assoc in Hinv'. }
  apply (Hgen xs [] s); auto.
Qed.

Lemma py_in_app (x : Z) (xs ys : list Z) :
  py_in x (xs ++ ys) = py_in x xs || py_in x ys.
Proof. unfold py_in. apply existsb_app. Qed.

Lemma py_in_single (x y : Z) : py_in x [y] = (x =? y).
Proof. unfold py_in. simpl. apply orb_false_r. Qed.

(** ** One cell *)

Lemma cell_value_idem (img_in : ndarray) (d : R) (t p : Z) (old : pixel) :
  cell_value img_in d t p (cell_value img_in d t p old)
  = cell_value img_in d t p old.
Proof.
  unfold cell_value. destruct (source_coord img_in d t p) as [[x y] | e];
    [| reflexivity].
  now destruct (in_bounds img_in x y).
Qed.

Lemma fdiv_ok (a b : R) : b <> 0%R -> fdiv a b = Ok (a / b)%R.
Proof.
  intros Hb. unfold fdiv. now destruct (Req_dec_T b 0).
Qed.

Lemma fdiv_zero (a : R) : fdiv a 0 = Raise ZeroDivisionError.
Proof.
  unfold fdiv. now destruct (Req_dec_T 0 0).
Qed.

Lemma cell_theta_ok (t t_max : Z) :
  t_max <> 0 ->
  cell_theta t t_max
  = Ok (IZR t / IZR t_max * (theta_max - theta_min) + theta_min)%R.
Proof.
  intros Hw. unfold cell_theta. rewrite fdiv_ok; [reflexivity |].
  now apply not_0_IZR.
Qed.

Lemma cell_phi_ok (p p_max : Z) :
  p_max <> 0 ->
  cell_phi p p_max
  = Ok (IZR p / IZR p_max * (phi_max - phi_min) + phi_min)%R.
Proof.
  intros Hw. unfold cell_phi. rewrite fdiv_ok; [reflexivity |].
  now apply not_0_IZR.
Qed.

Section Remap.

Variable img_in : ndarray.
Variable d : R.
Hypothesis Hrect : rectangular img_in.

Lemma in_bounds_getitem (x y : Z) :
  in_bounds img_in x y = true ->
  getitem img_in y x = Ok (pix img_in (Z.to_nat y) (Z.to_nat x)).
Proof.
  unfold in_bounds. rewrite !andb_true_iff, !Z.leb_le, !Z.ltb_lt.
  intros [[Hx0 Hx1] [Hy0 Hy1]].
  apply (getitem_in img_in (shape0 img_in) (shape1 img_in)); try lia.
  now apply rectangular_has_shape.
Qed.

(** The loop body returns, and touches the cell [(p, t)] only. *)
Lemma sample_cell (t p : Z) (img_out : ndarray) :
  0 <= t < shape1 img_in -> 0 <= p < shape1 img_in ->
  has_shape img_out (shape1 img_in) (shape1 img_in) ->
  exists img_out',
    sample img_in d (x_center img_in) (y_center img_in)
      (shape1 img_in) (shape1 img_in) t p img_out = Ok img_out' /\
    has_shape img_out' (shape1 img_in) (shape1 img_in) /\
    forall i j, 0 <= i < shape1 img_in -> 0 <= j < shape1 img_in ->
      pix img_out' (Z.to_nat i) (Z.to_nat j)
      = if (i =? p) && (j =? t)
        then cell_value img_in d t p (pix img_out (Z.to_nat i) (Z.to_nat j))
        else pix img_out (Z.to_nat i) (Z.to_nat j).
Proof.
  intros Ht Hp Hout. unfold sample, cell_value, source_coord.
  rewrite !cell_theta_ok by lia. cbn [bind].
  rewrite ?cell_phi_ok by lia. cbn [bind].
  rewrite guard_in_bounds. cbn [fst snd sph2cyl].
  set (x := py_int _). set (y := py_int _).
  destruct (in_bounds img_in x y) eqn:Hb.
  - rewrite in_bounds_getitem by assumption. simpl.
    rewrite (setitem_in img_out (shape1 img_in) (shape1 img_in)) by assumption.
    eexists. split; [reflexivity |]. split; [now apply put_has_shape |].
    intros i j Hi Hj.
    destruct (Z.eqb_spec i p) as [-> | Hip];
      [destruct (Z.eqb_spec j t) as [-> | Hjt] |]; simpl.
    + apply pix_put_same.
      * pose proof (has_shape_length _ _ _ Hout). lia.
      * rewrite Nat2Z.inj_lt.
        rewrite (has_shape_row img_out (shape1 img_in) (shape1 img_in));
          [lia | assumption |].
        pose proof (has_shape_length _ _ _ Hout). lia.
    + apply pix_put_other. intros Heq. inversion Heq. lia.
    + apply pix_put_other. intros Heq. inversion Heq. lia.
  - eexists. split; [reflexivity |]. split; [assumption |].
    intros i j Hi Hj.
    destruct (Z.eqb_spec i p) as [-> | Hip];
      [destruct (Z.eqb_spec j t) as [-> | Hjt] |]; reflexivity.
Qed.

(** The inner loop fills column [t]. *)
Lemma column_loop (t : Z) (img_out : ndarray) :
  0 <= t < shape1 img_in ->
  has_shape img_out (shape1 img_in) (shape1 img_in) ->
  exists img_out',
    for_each (range (shape1 img_in))
      (sample img_in d (x_center img_in) (y_center img_in)
         (shape1 img_in) (shape1 img_in) t) img_out
    = Ok img_out' /\
    has_shape img_out' (shape1 img_in) (shape1 img_in) /\
    forall i j, 0 <= i < shape1 img_in -> 0 <= j < shape1 img_in ->
      pix img_out' (Z.to_nat i) (Z.to_nat j)
      = if j =? t
        then cell_value img_in d t i (pix img_out (Z.to_nat i) (Z.to_nat j))
        else pix img_out (Z.to_nat i) (Z.to_nat j).
Proof.
  intros Ht Hout.
  destruct (for_each_invariant
    (fun done o => has_shape o (shape1 img_in) (shape1 img_in) /\
       forall i j, 0 <= i < shape1 img_in -> 0 <= j < shape1 img_in ->
         pix o (Z.to_nat i) (Z.to_nat j)
         = if (j =? t) && py_in i done
           then cell_value img_in d t i
                  (pix img_out (Z.to_nat i) (Z.to_nat j))
           else pix img_out (Z.to_nat i) (Z.to_nat j))
    (sample img_in d (x_center img_in) (y_center img_in)
       (shape1 img_in) (shape1 img_in) t)
    (range (shape1 img_in)) img_out) as [o [Hrun [Hshape Hcells]]].
  - split; [assumption |]. intros i j _ _. now rewrite andb_false_r.
  - intros done p o1 Hp [Hshape1 Hcells1]. apply in_range in Hp.
    destruct (sample_cell t p o1 Ht Hp Hshape1) as [o2 [Hb [Hshape2 Hcells2]]].
    exists o2. split; [assumption |]. split; [assumption |].
    intros i j Hi Hj. rewrite Hcells2, !Hcells1 by assumption.
    rewrite py_in_app, py_in_single.
    destruct (Z.eqb_spec j t) as [-> | Hjt];
      destruct (Z.eqb_spec i p) as [-> | Hip]; simpl;
      rewrite ?andb_false_r, ?orb_false_r, ?orb_true_r; try reflexivity.
    destruct (py_in p done); [apply cell_value_idem | reflexivity].
  - exists o. split; [assumption |]. split; [assumption |].
    intros i j Hi Hj. rewrite Hcells by assumption.
    replace (py_in i (range (shape1 img_in))) with true;
      [now rewrite andb_true_r |].
    symmetry. apply py_in_spec, in_range. lia.
Qed.

(** The double loop fills every cell of the square output. *)
Lemma grid_loop (img_out : ndarray) :
  has_shape img_out (shape1 img_in) (shape1 img_in) ->
  exists img_out',
    for_each (range (shape1 img_in))
      (fun t => for_each (range (shape1 img_in))
         (fun p => sample img_in d (x_center img_in) (y_center img_in)
                     (shape1 img_in) (shape1 img_in) t p)) img_out
    = Ok img_out' /\
    has_shape img_out' (shape1 img_in) (shape1 img_in) /\
    forall i j, 0 <= i < shape1 img_in -> 0 <= j < shape1 img_in ->
      pix img_out' (Z.to_nat i) (Z.to_nat j)
      = cell_value img_in d j i (pix img_out (Z.to_nat i) (Z.to_nat j)).
Proof.
  intros Hout.
  destruct (for_each_invariant
    (fun done o => has_shape o (shape1 img_in) (shape1 img_in) /\
       forall i j, 0 <= i < shape1 img_in -> 0 <= j < shape1 img_in ->
         pix o (Z.to_nat i) (Z.to_nat j)
         = if py_in j done
           then cell_value img_in d j i
                  (pix img_out (Z.to_nat i) (Z.to_nat j))
           else pix img_out (Z.to_nat i) (Z.to_nat j))
    (fun t => for_each (range (shape1 img_in))
         (fun p => sample img_in d (x_center img_in) (y_center img_in)
                     (shape1 img_in) (shape1 img_in) t p))
    (range (shape1 img_in)) img_out)
    as [o [Hrun [Hshape Hcells]]].
  - split; [assumption |]. now intros i j _ _.
  - intros done t o1 Ht [Hshape1 Hcells1]. apply in_range in Ht.
    destruct (column_loop t o1 Ht Hshape1) as [o2 [Hb [Hshape2 Hcells2]]].
    exists o2. split; [assumption |]. split; [assumption |].
    intros i j Hi Hj. rewrite Hcells2, !Hcells1 by assumption.
    rewrite py_in_app, py_in_single.
    destruct (Z.eqb_spec j t) as [-> | Hjt]; simpl;
      rewrite ?orb_false_r, ?orb_true_r; try reflexivity.
    destruct (py_in t done); [apply cell_value_idem | reflexivity].
  - exists o. split; [assumption |]. split; [assumption |].
    intros i j Hi Hj. rewrite Hcells by assumption.
    replace (py_in j (range (shape1 img_in))) with true; [reflexivity |].
    symmetry. apply py_in_spec, in_range. lia.
Qed.

End Remap.

(** ** The diameter *)

Lemma diameter_float (img_in : ndarray) (r : R) :
  r <> 0%R ->
  diameter img_in (PyFloat r) = Ok (IZR (shape1 img_in) / r / PI)%R.
Proof.
  intros Hr. unfold diameter, py_div. cbn [to_float].
  rewrite fdiv_ok by assumption. cbn [bind to_float].
  rewrite fdiv_ok by apply PI_neq0. reflexivity.
Qed.

Lemma diameter_int (img_in : ndarray) (c : Z) :
  c <> 0 ->
  diameter img_in (PyInt c) = Ok (IZR (shape1 img_in / c) / PI)%R.
Proof.
  intros Hc. unfold diameter, py_div.
  destruct (Z.eqb_spec c 0) as [-> | _]; [contradiction |].
  cbn [bind to_float]. rewrite fdiv_ok by apply PI_neq0. reflexivity.
Qed.

Lemma diameter_zero (img_in : ndarray) (c : number) :
  to_float c = 0%R -> diameter img_in c = Raise ZeroDivisionError.
Proof.
  intros Hc. destruct c as [n | r]; cbn [to_float] in Hc.
  - apply eq_IZR in Hc. subst n. reflexivity.
  - subst r. unfold diameter, py_div. cbn [to_float].
    now rewrite fdiv_zero.
Qed.

Lemma diameter_nonzero (img_in : ndarray) (c : number) :
  to_float c <> 0%R -> exists d, diameter img_in c = Ok d.
Proof.
  intros Hc. destruct c as [n | r]; cbn [to_float] in Hc.
  - eexists. apply diameter_int. intros ->. now apply Hc.
  - eexists. now apply diameter_float.
Qed.

Lemma diameter_valid (img_in : ndarray) (c : number) :
  valid_coverage c ->
  diameter img_in c = Ok (IZR (shape1 img_in) / to_float c / PI)%R.
Proof.
  unfold valid_coverage. intros Hc. destruct c as [n | r]; cbn [to_float] in *.
  - assert (n = 1) as ->.
    { destruct Hc as [H0 H1]. apply lt_IZR in H0. apply le_IZR in H1. lia. }
    rewrite diameter_int by lia. rewrite Z.div_1_r.
    f_equal. field. apply PI_neq0.
  - apply diameter_float. lra.
Qed.

(** ** The whole remapping *)

(** Whenever the diameter is defined, the remapping returns a square image
    of the input's width whose cell [(p, t)] holds [cell_value] over black. *)
Lemma img_cyl2sph_cells (img_in : ndarray) (coverage : number) (d : R) :
  rectangular img_in ->
  diameter img_in coverage = Ok d ->
  exists img_out,
    img_cyl2sph img_in coverage = Ok img_out /\
    has_shape img_out (shape1 img_in) (shape1 img_in) /\
    forall p t, 0 <= p < shape1 img_in -> 0 <= t < shape1 img_in ->
      getitem img_out p t = Ok (cell_value img_in d t p black).
Proof.
  intros Hrect Hd. unfold img_cyl2sph. rewrite Hd. cbn [bind].
  assert (Hw : 0 <= shape1 img_in).
  { unfold shape1. destruct img_in; lia. }
  destruct (grid_loop img_in d Hrect (zeros (shape1 img_in) (shape1 img_in)))
    as [out [Hrun [Hshape Hcells]]].
  { now apply zeros_has_shape. }
  exists out. split; [exact Hrun |]. split; [assumption |].
  intros p t Hp Ht.
  rewrite (getitem_in out (shape1 img_in) (shape1 img_in)) by assumption.
  rewrite Hcells by assumption. now rewrite pix_zeros.
Qed.

Lemma source_coord_ok (img_in : ndarray) (d : R) (t p : Z) :
  shape1 img_in <> 0 ->
  exists theta phi,
    cell_theta t (shape1 img_in) = Ok theta /\
    cell_phi p (shape1 img_in) = Ok phi /\
    source_coord img_in d t p
    = Ok (py_int (d * theta + IZR (x_center img_in)),
          py_int (d * tan phi * cos theta + IZR (y_center img_in))).
Proof.
  intros Hw. unfold source_coord.
  rewrite (cell_theta_ok t) by assumption.
  rewrite (cell_phi_ok p) by assumption.
  do 2 eexists. split; [reflexivity |]. split; reflexivity.
Qed.

Lemma in_bounds_spec (a : ndarray) (x y : Z) :
  in_bounds a x y = true <-> (0 <= x < shape1 a /\ 0 <= y < shape0 a).
Proof.
  unfold in_bounds. rewrite !andb_true_iff, !Z.leb_le, !Z.ltb_lt. tauto.
Qed.

Lemma pixel_ok_black : pixel_ok black.
Proof. unfold pixel_ok, black, uint8. lia. Qed.

Lemma pix_ok (a : ndarray) (i j : nat) : image_ok a -> pixel_ok (pix a i j).
Proof.
  intros Ha. unfold pix. apply Forall_nth_default; [| apply pixel_ok_black].
  apply Forall_nth_default; [assumption | constructor].
Qed.

Lemma cell_value_ok (img_in : ndarray) (d : R) (t p : Z) :
  image_ok img_in -> pixel_ok (cell_value img_in d t p black).
Proof.
  intros Hin. unfold cell_value.
  destruct (source_coord img_in d t p) as [[x y] | e];
    [| apply pixel_ok_black].
  destruct (in_bounds img_in x y); [now apply pix_ok | apply pixel_ok_black].
Qed.

Lemma image_ok_cells (a : ndarray) (h w : Z) :
  has_shape a h w ->
  (forall i j, 0 <= i < h -> 0 <= j < w ->
     pixel_ok (pix a (Z.to_nat i) (Z.to_nat j))) ->
  image_ok a.
Proof.
  intros Ha Hcells. unfold image_ok.
  apply Forall_nth. intros i dflt Hi.
  apply Forall_nth. intros j dflt' Hj.
  pose proof (has_shape_length a h w Ha) as Hlen.
  pose proof (has_shape_row a h w i Ha Hi) as Hrow.
  rewrite (nth_indep a dflt []) in * by assumption.
  rewrite (nth_indep _ dflt' black) by assumption.
  specialize (Hcells (Z.of_nat i) (Z.of_nat j)).
  rewrite !Nat2Z.id in Hcells. apply Hcells; lia.
Qed.

(** * The specification, claim by claim *)

(** ** The coverage fallback *)

Lemma default_coverage_kept :
  py_le default_coverage (PyInt 0) || py_gt default_coverage (PyInt 1) = false.
Proof.
  unfold default_coverage, py_le, py_gt. cbn [to_float].
  destruct (Rle_dec (9 / 10) 0); [lra |].
  destruct (Rlt_dec 1 (9 / 10)); [lra | reflexivity].
Qed.

Lemma file_cyl2sph_default (fs : filesystem) (file_in file_out : string)
  (c : number) :
  py_le c (PyInt 0) || py_gt c (PyInt 1) = true ->
  file_cyl2sph fs file_in file_out c
  = file_cyl2sph fs file_in file_out default_coverage.
Proof.
  intros Hbad. unfold file_cyl2sph.
  now rewrite Hbad, default_coverage_kept.
Qed.

(** C1, as stated, fails: [img_cyl2sph] itself substitutes nothing.  On a
    one-pixel image the coverage 0 raises [ZeroDivisionError] in the
    computation of the diameter, so the call does not return an image. *)
Lemma img_cyl2sph_coverage_zero_raises :
  img_cyl2sph [[white]] (PyInt 0) = Raise ZeroDivisionError /\
  ~ (exists img_out,
       img_cyl2sph [[white]] (PyInt 0) = Ok img_out /\
       img_cyl2sph [[white]] (PyFloat (9 / 10)) = Ok img_out).
Proof.
  assert (H : img_cyl2sph [[white]] (PyInt 0) = Raise ZeroDivisionError)
    by reflexivity.
  split; [exact H |]. intros [img_out [Hrun _]]. rewrite H in Hrun.
  discriminate.
Qed.

(** C1 (amended): the coverage fallback is applied by the file driver
    [file_cyl2sph] before it calls [img_cyl2sph].  With a coverage of 0, of
    -1 or of 1.5, and with any coverage [c <= 0] or [c > 1], the driver
    behaves exactly as with the coverage 0.9. *)
Theorem file_cyl2sph_coverage_fallback (fs : filesystem)
  (file_in file_out : string) :
  file_cyl2sph fs file_in file_out (PyInt 0)
  = file_cyl2sph fs file_in file_out (PyFloat (9 / 10)) /\
  file_cyl2sph fs file_in file_out (PyInt (-1))
  = file_cyl2sph fs file_in file_out (PyFloat (9 / 10)) /\
  file_cyl2sph fs file_in file_out (PyFloat (3 / 2))
  = file_cyl2sph fs file_in file_out (PyFloat (9 / 10)) /\
  forall c, py_le c (PyInt 0) || py_gt c (PyInt 1) = true ->
    file_cyl2sph fs file_in file_out c
    = file_cyl2sph fs file_in file_out (PyFloat (9 / 10)).
Proof.
  repeat split.
  - now apply file_cyl2sph_default.
  - now apply file_cyl2sph_default.
  - apply file_cyl2sph_default. unfold py_le, py_gt. cbn [to_float].
    destruct (Rle_dec (3 / 2) 0); [lra |].
    destruct (Rlt_dec 1 (3 / 2)); [reflexivity | lra].
  - intros c Hc. now apply file_cyl2sph_default.
Qed.

Lemma file_cyl2sph_coverage_fallback_witness :
  py_le (PyInt (-7)) (PyInt 0) || py_gt (PyInt (-7)) (PyInt 1) = true /\
  file_cyl2sph (fun _ => Some [[white]]) "a.jpg" "b.jpg" (PyInt (-7))
  = file_cyl2sph (fun _ => Some [[white]]) "a.jpg" "b.jpg"
      (PyFloat (9 / 10)).
Proof.
  split; [reflexivity |].
  apply (file_cyl2sph_coverage_fallback (fun _ => Some [[white]])
           "a.jpg" "b.jpg").
  reflexivity.
Defined.

(** ** The coordinate converters *)

Lemma cos_half_open (theta : R) :
  (- (PI / 2) < theta < PI / 2)%R -> cos theta <> 0%R.
Proof.
  intros [Hlo Hhi]. apply Rgt_not_eq. now apply cos_gt_0.
Qed.

(** C2: for every [d > 0] and all angles [theta], [phi] strictly inside
    (-pi/2, pi/2), converting to cylindrical coordinates and back with the
    same [d] returns the original angles. *)
Theorem cyl2sph_sph2cyl_inverse (theta phi d : R) :
  (0 < d)%R ->
  (- (PI / 2) < theta < PI / 2)%R ->
  (- (PI / 2) < phi < PI / 2)%R ->
  cyl2sph (fst (sph2cyl theta phi d)) (snd (sph2cyl theta phi d)) d
  = Ok (theta, phi).
Proof.
  intros Hd Htheta Hphi. unfold cyl2sph, sph2cyl. cbn [fst snd].
  assert (Hd0 : d <> 0%R) by lra.
  pose proof (cos_half_open theta Htheta) as Hcos.
  rewrite fdiv_ok by assumption. cbn [bind].
  replace (d * theta / d)%R with theta by (field; assumption).
  rewrite fdiv_ok by assumption. cbn [bind].
  rewrite fdiv_ok by assumption. cbn [bind].
  replace (d * tan phi * cos theta / cos theta / d)%R with (tan phi)
    by (field; split; assumption).
  now rewrite atan_tan.
Qed.

Lemma cyl2sph_sph2cyl_inverse_witness :
  cyl2sph (fst (sph2cyl 0 0 1)) (snd (sph2cyl 0 0 1)) 1 = Ok (0%R, 0%R).
Proof.
  pose proof PI_RGT_0 as Hpi.
  apply (cyl2sph_sph2cyl_inverse 0 0 1); lra.
Defined.

(** C6: for [d > 0], when [cos (x / d)] is not zero [cyl2sph x y d] returns
    [(x / d, atan (y / cos (x / d) / d))]; when [cos (x / d)] is zero the
    unguarded division raises and no result is returned. *)
Theorem cyl2sph_formula (x y d : R) :
  (0 < d)%R ->
  (cos (x / d) <> 0%R ->
   cyl2sph x y d = Ok ((x / d)%R, atan (y / cos (x / d) / d))) /\
  (cos (x / d) = 0%R -> cyl2sph x y d = Raise ZeroDivisionError).
Proof.
  intros Hd. assert (Hd0 : d <> 0%R) by lra.
  unfold cyl2sph. rewrite fdiv_ok by assumption. cbn [bind]. split.
  - intros Hcos. rewrite fdiv_ok by assumption. cbn [bind].
    now rewrite fdiv_ok by assumption.
  - intros Hcos. rewrite Hcos. now rewrite fdiv_zero.
Qed.

Lemma cyl2sph_formula_witness :
  cyl2sph 0 1 1 = Ok ((0 / 1)%R, atan (1 / cos (0 / 1) / 1)) /\
  cyl2sph (PI / 2) 1 1 = Raise ZeroDivisionError.
Proof.
  split.
  - apply (cyl2sph_formula 0 1 1); [lra |].
    replace (0 / 1)%R with 0%R by lra. rewrite cos_0. lra.
  - apply (cyl2sph_formula (PI / 2) 1 1); [lra |].
    replace (PI / 2 / 1)%R with (PI / 2)%R by lra. apply cos_PI2.
Defined.

(** ** The remapped image *)

Lemma rectangular_one_white : rectangular [[white]].
Proof. repeat constructor. Qed.

Lemma valid_coverage_one : valid_coverage (PyInt 1).
Proof. unfold valid_coverage. cbn [to_float]. lra. Qed.

Lemma valid_coverage_nonzero (c : number) :
  valid_coverage c -> to_float c <> 0%R.
Proof. unfold valid_coverage. lra. Qed.

(** The output cell in terms of the source coordinate. *)
Lemma cell_value_source (img_in : ndarray) (d : R) (t p x y : Z)
  (old : pixel) :
  source_coord img_in d t p = Ok (x, y) ->
  cell_value img_in d t p old
  = if in_bounds img_in x y then pix img_in (Z.to_nat y) (Z.to_nat x)
    else old.
Proof. intros Hsrc. unfold cell_value. now rewrite Hsrc. Qed.

(** C3: for a well-formed image and a valid coverage the remapping returns,
    and for every output cell [(p, t)] with computed source coordinate
    [(src_x, src_y)]: if [0 <= src_x < W] and [0 <= src_y < H] the output
    pixel equals the input pixel at [(src_y, src_x)], otherwise it is
    [(0, 0, 0)].  Every output pixel is thus a copy of one input pixel or
    black. *)
Theorem copy_or_black (img_in : ndarray) (coverage : number) :
  rectangular img_in ->
  valid_coverage coverage ->
  exists d img_out,
    diameter img_in coverage = Ok d /\
    img_cyl2sph img_in coverage = Ok img_out /\
    forall p t, 0 <= p < shape1 img_in -> 0 <= t < shape1 img_in ->
      exists src_x src_y,
        source_coord img_in d t p = Ok (src_x, src_y) /\
        (0 <= src_x < shape1 img_in /\ 0 <= src_y < shape0 img_in ->
         exists v, getitem img_in src_y src_x = Ok v /\
                   getitem img_out p t = Ok v) /\
        (~ (0 <= src_x < shape1 img_in /\ 0 <= src_y < shape0 img_in) ->
         getitem img_out p t = Ok black).
Proof.
  intros Hrect Hcov.
  destruct (diameter_nonzero img_in coverage) as [d Hd];
    [now apply valid_coverage_nonzero |].
  destruct (img_cyl2sph_cells img_in coverage d Hrect Hd)
    as [img_out [Hrun [_ Hcells]]].
  exists d, img_out. split; [assumption |]. split; [assumption |].
  intros p t Hp Ht.
  destruct (source_coord_ok img_in d t p) as [theta [phi [_ [_ Hsrc]]]];
    [lia |].
  do 2 eexists. split; [exact Hsrc |].
  rewrite (Hcells p t Hp Ht), (cell_value_source _ _ _ _ _ _ _ Hsrc).
  split.
  - intros Hin. apply in_bounds_spec in Hin. rewrite Hin.
    eexists. split; [| reflexivity]. now apply in_bounds_getitem.
  - intros Hout. destruct (in_bounds img_in _ _) eqn:Hb; [| reflexivity].
    apply in_bounds_spec in Hb. contradiction.
Qed.

Lemma copy_or_black_witness :
  exists d img_out,
    diameter [[white]] (PyInt 1) = Ok d /\
    img_cyl2sph [[white]] (PyInt 1) = Ok img_out /\
    forall p t, 0 <= p < shape1 [[white]] -> 0 <= t < shape1 [[white]] ->
      exists src_x src_y,
        source_coord [[white]] d t p = Ok (src_x, src_y) /\
        (0 <= src_x < shape1 [[white]] /\ 0 <= src_y < shape0 [[white]] ->
         exists v, getitem [[white]] src_y src_x = Ok v /\
                   getitem img_out p t = Ok v) /\
        (~ (0 <= src_x < shape1 [[white]] /\ 0 <= src_y < shape0 [[white]]) ->
         getitem img_out p t = Ok black).
Proof.
  apply (copy_or_black [[white]] (PyInt 1)).
  - exact rectangular_one_white.
  - exact valid_coverage_one.
Defined.

Lemma has_shape_rectangular (a : ndarray) (h w : Z) :
  has_shape a h w -> 1 <= h -> rectangular a /\ shape0 a = h /\ shape1 a = w.
Proof.
  intros Ha Hh. pose proof (has_shape_shape1 a h w Ha ltac:(lia)) as Hw.
  destruct Ha as [Hlen Hrows]. unfold rectangular. now rewrite Hw.
Qed.

(** C4: for every 8-bit, 3-channel input image of height [h >= 1] and width
    [w >= 1] and every coverage in (0, 1], the remapping returns a square
    image of [w] rows and [w] columns whose pixels are again triples of
    8-bit values. *)
Theorem output_shape (img_in : ndarray) (coverage : number) (h w : Z) :
  has_shape img_in h w ->
  1 <= h -> 1 <= w ->
  image_ok img_in ->
  valid_coverage coverage ->
  exists img_out,
    img_cyl2sph img_in coverage = Ok img_out /\
    shape0 img_out = w /\ shape1 img_out = w /\
    rectangular img_out /\ image_ok img_out.
Proof.
  intros Hshape Hh Hw Hok Hcov.
  destruct (has_shape_rectangular img_in h w Hshape Hh) as [Hrect [_ Hw1]].
  destruct (diameter_nonzero img_in coverage) as [d Hd];
    [now apply valid_coverage_nonzero |].
  destruct (img_cyl2sph_cells img_in coverage d Hrect Hd)
    as [img_out [Hrun [Hout Hcells]]].
  rewrite Hw1 in Hout, Hcells.
  destruct (has_shape_rectangular img_out w w Hout Hw) as [Hrect' [H0 H1]].
  exists img_out. repeat split; try assumption.
  apply (image_ok_cells img_out w w Hout). intros i j Hi Hj.
  specialize (Hcells i j Hi Hj).
  rewrite (getitem_in img_out w w) in Hcells by assumption.
  injection Hcells as ->. now apply cell_value_ok.
Qed.

Lemma output_shape_witness :
  exists img_out,
    img_cyl2sph [[white; black]] (PyInt 1) = Ok img_out /\
    shape0 img_out = 2 /\ shape1 img_out = 2 /\
    rectangular img_out /\ image_ok img_out.
Proof.
  apply (output_shape [[white; black]] (PyInt 1) 1 2).
  - split; [reflexivity | repeat constructor].
  - lia.
  - lia.
  - repeat constructor; unfold uint8; lia.
  - exact valid_coverage_one.
Defined.

(** ** The centres *)

Lemma half_bounds (n : Z) : (IZR n / 2 - 1 < IZR (n / 2) <= IZR n / 2)%R.
Proof.
  pose proof (Z.div_mod n 2 ltac:(lia)) as Hdiv.
  pose proof (Z.mod_pos_bound n 2 ltac:(lia)) as Hmod.
  assert (Hr : IZR n = (2 * IZR (n / 2) + IZR (n mod 2))%R).
  { rewrite Hdiv at 1. now rewrite plus_IZR, mult_IZR. }
  assert (H0 : (0 <= IZR (n mod 2))%R) by (apply IZR_le; lia).
  assert (H1 : (IZR (n mod 2) <= 1)%R) by (apply IZR_le; lia).
  lra.
Qed.

Lemma floor_half (n : Z) : Int_part (IZR n / 2) = n / 2.
Proof. symmetry. apply Int_part_spec, half_bounds. Qed.

Lemma trunc_half (n : Z) : 0 <= n -> py_int (IZR n / 2) = n / 2.
Proof.
  intros Hn. unfold py_int.
  destruct (Rle_dec 0 (IZR n / 2)) as [_ | Hneg]; [apply floor_half |].
  exfalso. apply Hneg. apply IZR_le in Hn. lra.
Qed.

Lemma shape0_nonneg (a : ndarray) : 0 <= shape0 a.
Proof. unfold shape0. lia. Qed.

Lemma shape1_nonneg (a : ndarray) : 0 <= shape1 a.
Proof. unfold shape1. destruct a; lia. Qed.

Lemma odd_half (n : Z) :
  Z.odd n = true -> IZR (n / 2) = ((IZR n - 1) / 2)%R.
Proof.
  intros Hodd. apply Z.odd_spec in Hodd. destruct Hodd as [k ->].
  replace ((2 * k + 1) / 2) with k
    by (apply (Z.div_unique (2 * k + 1) 2 k 1); lia).
  rewrite plus_IZR, mult_IZR. lra.
Qed.

(** C5: the centres are [x_center = floor (W / 2)] and
    [y_center = floor (H / 2)], which is also the truncation of the half;
    for an odd dimension the centre is half of the dimension minus one, not
    the exact half.  These floors are the values added to the converted
    coordinates before the integer cast that selects the source pixel of
    every output cell. *)
Theorem centers_are_floors (img_in : ndarray) (coverage : number) :
  rectangular img_in ->
  valid_coverage coverage ->
  x_center img_in = Int_part (IZR (shape1 img_in) / 2) /\
  y_center img_in = Int_part (IZR (shape0 img_in) / 2) /\
  x_center img_in = py_int (IZR (shape1 img_in) / 2) /\
  y_center img_in = py_int (IZR (shape0 img_in) / 2) /\
  (Z.odd (shape1 img_in) = true ->
   IZR (x_center img_in) = ((IZR (shape1 img_in) - 1) / 2)%R) /\
  (Z.odd (shape0 img_in) = true ->
   IZR (y_center img_in) = ((IZR (shape0 img_in) - 1) / 2)%R) /\
  exists d img_out,
    diameter img_in coverage = Ok d /\
    img_cyl2sph img_in coverage = Ok img_out /\
    forall p t, 0 <= p < shape1 img_in -> 0 <= t < shape1 img_in ->
      exists theta phi,
        cell_theta t (shape1 img_in) = Ok theta /\
        cell_phi p (shape1 img_in) = Ok phi /\
        let src_x :=
          py_int (fst (sph2cyl theta phi d)
                  + IZR (Int_part (IZR (shape1 img_in) / 2))) in
        let src_y :=
          py_int (snd (sph2cyl theta phi d)
                  + IZR (Int_part (IZR (shape0 img_in) / 2))) in
        getitem img_out p t
        = if in_bounds img_in src_x src_y
          then getitem img_in src_y src_x else Ok black.
Proof.
  intros Hrect Hcov. unfold x_center, y_center.
  rewrite !floor_half.
  rewrite !trunc_half by (apply shape0_nonneg || apply shape1_nonneg).
  repeat (split; [reflexivity || apply odd_half |]).
  destruct (diameter_nonzero img_in coverage) as [d Hd];
    [now apply valid_coverage_nonzero |].
  destruct (img_cyl2sph_cells img_in coverage d Hrect Hd)
    as [img_out [Hrun [_ Hcells]]].
  exists d, img_out. split; [assumption |]. split; [assumption |].
  intros p t Hp Ht.
  destruct (source_coord_ok img_in d t p) as [theta [phi [Hth [Hph Hsrc]]]];
    [lia |].
  exists theta, phi. split; [assumption |]. split; [assumption |].
  cbn zeta. unfold sph2cyl. cbn [fst snd].
  rewrite (Hcells p t Hp Ht), (cell_value_source _ _ _ _ _ _ _ Hsrc).
  unfold x_center, y_center.
  destruct (in_bounds img_in _ _) eqn:Hb; [| reflexivity].
  symmetry. now apply in_bounds_getitem.
Qed.

Lemma centers_are_floors_witness :
  x_center [[white; black; white]] = 1 /\
  IZR (x_center [[white; black; white]])
  = ((IZR (shape1 [[white; black; white]]) - 1) / 2)%R.
Proof.
  split; [reflexivity |].
  apply (centers_are_floors [[white; black; white]] (PyInt 1)).
  - repeat constructor.
  - exact valid_coverage_one.
  - reflexivity.
Defined.

(** ** Individual cells *)

(** The output cell whose source coordinate is known to be in bounds. *)
Lemma cell_at (img_in : ndarray) (coverage : number) (d theta phi : R)
  (t p x y : Z) :
  rectangular img_in ->
  diameter img_in coverage = Ok d ->
  0 <= p < shape1 img_in -> 0 <= t < shape1 img_in ->
  cell_theta t (shape1 img_in) = Ok theta ->
  cell_phi p (shape1 img_in) = Ok phi ->
  py_int (d * theta + IZR (x_center img_in)) = x ->
  py_int (d * tan phi * cos theta + IZR (y_center img_in)) = y ->
  in_bounds img_in x y = true ->
  exists img_out,
    img_cyl2sph img_in coverage = Ok img_out /\
    has_shape img_out (shape1 img_in) (shape1 img_in) /\
    getitem img_out p t = Ok (pix img_in (Z.to_nat y) (Z.to_nat x)).
Proof.
  intros Hrect Hd Hp Ht Hth Hph Hx Hy Hb.
  destruct (img_cyl2sph_cells img_in coverage d Hrect Hd)
    as [img_out [Hrun [Hshape Hcells]]].
  exists img_out. split; [assumption |]. split; [assumption |].
  rewrite (Hcells p t Hp Ht). f_equal.
  rewrite (cell_value_source img_in d t p x y).
  - now rewrite Hb.
  - unfold source_coord. rewrite Hth, Hph. cbn [bind sph2cyl fst snd].
    now rewrite Hx, Hy.
Qed.

Lemma cell_theta_middle (k : Z) :
  1 <= k -> cell_theta k (2 * k) = Ok 0%R.
Proof.
  intros Hk. rewrite cell_theta_ok by lia. f_equal.
  unfold theta_min, theta_max. rewrite mult_IZR.
  assert (Hk0 : IZR k <> 0%R) by (apply not_0_IZR; lia).
  field. assumption.
Qed.

Lemma cell_phi_middle (k : Z) :
  1 <= k -> cell_phi k (2 * k) = Ok 0%R.
Proof.
  intros Hk. rewrite cell_phi_ok by lia. f_equal.
  unfold phi_min, phi_max. rewrite mult_IZR.
  assert (Hk0 : IZR k <> 0%R) by (apply not_0_IZR; lia).
  field. assumption.
Qed.

Lemma rectangular_height (a : ndarray) :
  1 <= shape1 a -> 1 <= shape0 a.
Proof. unfold shape0, shape1. destruct a; simpl; lia. Qed.

(** For an even width the middle cell of the output receives the pixel at
    the centre of the input. *)
Lemma middle_cell_even (img_in : ndarray) (coverage : number) :
  rectangular img_in ->
  1 <= shape1 img_in ->
  Z.even (shape1 img_in) = true ->
  to_float coverage <> 0%R ->
  exists img_out,
    img_cyl2sph img_in coverage = Ok img_out /\
    has_shape img_out (shape1 img_in) (shape1 img_in) /\
    getitem img_out (shape1 img_in / 2) (shape1 img_in / 2)
    = Ok (pix img_in (Z.to_nat (y_center img_in))
                     (Z.to_nat (x_center img_in))) /\
    getitem img_in (y_center img_in) (x_center img_in)
    = Ok (pix img_in (Z.to_nat (y_center img_in))
                     (Z.to_nat (x_center img_in))).
Proof.
  intros Hrect Hw Heven Hcov.
  pose proof (rectangular_height img_in Hw) as Hh.
  destruct (diameter_nonzero img_in coverage Hcov) as [d Hd].
  apply Z.even_spec in Heven. destruct Heven as [k Hk].
  assert (Hhalf : shape1 img_in / 2 = k).
  { rewrite Hk. symmetry. apply (Z.div_unique (2 * k) 2 k 0); lia. }
  assert (Hb : in_bounds img_in (x_center img_in) (y_center img_in) = true).
  { apply in_bounds_spec. unfold x_center, y_center. rewrite Hhalf.
    split; [lia |].
    split; [apply Z.div_pos; lia | apply Z.div_lt_upper_bound; lia]. }
  destruct (cell_at img_in coverage d 0 0 (shape1 img_in / 2)
              (shape1 img_in / 2) (x_center img_in) (y_center img_in))
    as [img_out [Hrun [Hshape Hcell]]]; try assumption.
  - rewrite Hhalf. lia.
  - rewrite Hhalf. lia.
  - rewrite Hhalf, Hk. apply cell_theta_middle. lia.
  - rewrite Hhalf, Hk. apply cell_phi_middle. lia.
  - replace (d * 0 + IZR (x_center img_in))%R with (IZR (x_center img_in))
      by lra.
    apply py_int_IZR.
  - rewrite tan_0.
    replace (d * 0 * cos 0 + IZR (y_center img_in))%R
      with (IZR (y_center img_in)) by lra.
    apply py_int_IZR.
  - exists img_out. split; [assumption |]. split; [assumption |].
    split; [assumption |]. now apply in_bounds_getitem.
Qed.

(** C7, as stated, fails for an odd width.  On a 1 x 3 image with three
    different pixels and coverage 1.0 the middle output cell (1, 1) has
    theta = phi = -pi/6; its source column is [int (-1/2 + 1) = 0], not
    [x_center = 1], and the cell receives the first pixel of the row, not
    the central one. *)
Lemma center_mapping_fails_odd_width :
  let img := [[(1, 0, 0); (2, 0, 0); (3, 0, 0)]] in
  exists img_out,
    img_cyl2sph img (PyFloat 1) = Ok img_out /\
    getitem img_out (shape1 img / 2) (shape1 img / 2) = Ok (1, 0, 0) /\
    getitem img (y_center img) (x_center img) = Ok (2, 0, 0) /\
    getitem img_out (shape1 img / 2) (shape1 img / 2)
    <> getitem img (y_center img) (x_center img).
Proof.
  intros img.
  assert (Hrect : rectangular img) by (repeat constructor).
  assert (Hd : diameter img (PyFloat 1) = Ok (3 / 1 / PI)%R).
  { apply (diameter_float img 1). lra. }
  pose proof PI_RGT_0 as Hpi. pose proof PI2_3_2 as Hpi3.
  assert (Hpi0 : PI <> 0%R) by lra.
  set (a := (1 / 3 * (theta_max - theta_min) + theta_min)%R).
  assert (Ha : a = (- (PI / 6))%R).
  { unfold a, theta_min, theta_max. field. }
  assert (Hcos : (0 < cos a)%R).
  { apply cos_gt_0; rewrite Ha; lra. }
  destruct (cell_at img (PyFloat 1) (3 / 1 / PI)%R a a 1 1 0 0)
    as [img_out [Hrun [_ Hcell]]]; try assumption.
  - change (shape1 img) with 3. lia.
  - change (shape1 img) with 3. lia.
  - change (shape1 img) with 3. now rewrite cell_theta_ok by lia.
  - change (shape1 img) with 3. now rewrite cell_phi_ok by lia.
  - change (x_center img) with 1. apply py_int_nonneg; rewrite Ha.
    + replace (3 / 1 / PI * - (PI / 6) + 1)%R with (1 / 2)%R
        by (field; assumption).
      lra.
    + replace (3 / 1 / PI * - (PI / 6) + 1)%R with (1 / 2)%R
        by (field; assumption).
      lra.
  - change (y_center img) with 0. apply py_int_small.
    replace (3 / 1 / PI * tan a * cos a + 0)%R with (3 / PI * sin a)%R
      by (unfold tan; field; split; lra).
    pose proof (SIN_bound a) as [Hs0 Hs1].
    assert (Hd1 : (0 < 3 / PI < 1)%R).
    { split.
      - apply Rdiv_lt_0_compat; lra.
      - apply (Rmult_lt_reg_r PI); [assumption |].
        replace (3 / PI * PI)%R with 3%R by (field; assumption). lra. }
    split; nra.
  - reflexivity.
  - exists img_out. split; [assumption |].
    change (shape1 img / 2) with 1. split; [exact Hcell |].
    split; [reflexivity |]. rewrite Hcell.
    change (getitem img (y_center img) (x_center img)) with
      (@Ok pixel (2, 0, 0)).
    discriminate.
Qed.

(** C7 (amended): for a well-formed image of even width [W] and a valid
    coverage, the output cell of row [W / 2] and column [W / 2] receives a
    copy of the input pixel at column [x_center] and row [y_center]. *)
Theorem center_mapping_even_width (img_in : ndarray) (coverage : number) :
  rectangular img_in ->
  1 <= shape1 img_in ->
  Z.even (shape1 img_in) = true ->
  valid_coverage coverage ->
  exists img_out v,
    img_cyl2sph img_in coverage = Ok img_out /\
    getitem img_in (y_center img_in) (x_center img_in) = Ok v /\
    getitem img_out (shape1 img_in / 2) (shape1 img_in / 2) = Ok v.
Proof.
  intros Hrect Hw Heven Hcov.
  destruct (middle_cell_even img_in coverage Hrect Hw Heven)
    as [img_out [Hrun [_ [Hcell Hcentre]]]];
    [now apply valid_coverage_nonzero |].
  eexists. eexists. split; [exact Hrun |]. split; [exact Hcentre |].
  exact Hcell.
Qed.

Lemma center_mapping_even_width_witness :
  exists img_out v,
    img_cyl2sph [[white; black]] (PyInt 1) = Ok img_out /\
    getitem [[white; black]] (y_center [[white; black]])
      (x_center [[white; black]]) = Ok v /\
    getitem img_out (shape1 [[white; black]] / 2)
      (shape1 [[white; black]] / 2) = Ok v.
Proof.
  apply (center_mapping_even_width [[white; black]] (PyInt 1)).
  - repeat constructor.
  - simpl. lia.
  - reflexivity.
  - exact valid_coverage_one.
Defined.

(** ** The 4 x 4 white image *)

Lemma rectangular_white4 : rectangular white4.
Proof. repeat constructor. Qed.

Lemma diameter_white4 : diameter white4 (PyFloat 1) = Ok (4 / 1 / PI)%R.
Proof. apply (diameter_float white4 1). lra. Qed.

Lemma cell_theta_first (t_max : Z) :
  1 <= t_max -> cell_theta 0 t_max = Ok (- (PI / 2))%R.
Proof.
  intros Hw. rewrite cell_theta_ok by lia. f_equal.
  unfold theta_min, theta_max. field. apply not_0_IZR. lia.
Qed.

Lemma cell_phi_first (p_max : Z) :
  1 <= p_max -> cell_phi 0 p_max = Ok (- (PI / 2))%R.
Proof.
  intros Hw. rewrite cell_phi_ok by lia. f_equal.
  unfold phi_min, phi_max. field. apply not_0_IZR. lia.
Qed.

(** At theta = -pi/2 the source row is the centre row, whatever finite
    value [c] the tangent contributes. *)
Lemma corner_row (d c : R) (yc : Z) :
  py_int (d * c * cos (- (PI / 2)) + IZR yc) = yc.
Proof.
  rewrite cos_neg, cos_PI2.
  replace (d * c * 0 + IZR yc)%R with (IZR yc) by lra.
  apply py_int_IZR.
Qed.

(** The corner cell: theta = phi = -pi/2 gives the source column
    [int (-2 + 2) = 0], and the factor [cos theta = 0] gives the source row
    [int (0 + 2) = 2], a coordinate inside the image. *)
Lemma white4_corner :
  exists img_out,
    img_cyl2sph white4 (PyFloat 1) = Ok img_out /\
    has_shape img_out 4 4 /\
    getitem img_out 0 0 = Ok white.
Proof.
  pose proof PI_RGT_0 as Hpi. assert (Hpi0 : PI <> 0%R) by lra.
  destruct (cell_at white4 (PyFloat 1) (4 / 1 / PI)%R
              (- (PI / 2))%R (- (PI / 2))%R 0 0 0 2)
    as [img_out [Hrun [Hshape Hcell]]].
  - exact rectangular_white4.
  - exact diameter_white4.
  - change (shape1 white4) with 4. lia.
  - change (shape1 white4) with 4. lia.
  - apply cell_theta_first. change (shape1 white4) with 4. lia.
  - apply cell_phi_first. change (shape1 white4) with 4. lia.
  - change (x_center white4) with 2.
    replace (4 / 1 / PI * - (PI / 2) + 2)%R with (IZR 0)
      by (field; assumption).
    apply py_int_IZR.
  - change (y_center white4) with 2. apply corner_row.
  - reflexivity.
  - exists img_out. split; [assumption |]. split; [assumption |].
    exact Hcell.
Qed.

Lemma white4_middle :
  exists img_out,
    img_cyl2sph white4 (PyFloat 1) = Ok img_out /\
    getitem img_out 2 2 = Ok white.
Proof.
  destruct (middle_cell_even white4 (PyFloat 1))
    as [img_out [Hrun [_ [Hcell _]]]].
  - exact rectangular_white4.
  - change (shape1 white4) with 4. lia.
  - reflexivity.
  - cbn [to_float]. lra.
  - exists img_out. split; [assumption |]. exact Hcell.
Qed.

(** C8, as stated, fails at the corner: for the 4 x 4 white image and
    coverage 1.0 the cell at t = 0, p = 0 is white, not black.  Its source
    coordinate is in bounds, so a white input pixel is copied. *)
Lemma white4_corner_not_black :
  exists img_out,
    img_cyl2sph white4 (PyFloat 1) = Ok img_out /\
    getitem img_out 0 0 = Ok white /\
    getitem img_out 0 0 <> Ok black.
Proof.
  destruct white4_corner as [img_out [Hrun [_ Hcell]]].
  exists img_out. split; [assumption |]. split; [assumption |].
  rewrite Hcell. discriminate.
Qed.

(** C8 (amended): for the 4 x 4 all-white image and coverage 1.0 the
    remapping returns a 4 x 4 image in which the cell at t = 2, p = 2 is
    pure white and the corner cell at t = 0, p = 0 is pure white as well,
    its source coordinate being in bounds. *)
Theorem white4_scenario :
  exists img_out,
    img_cyl2sph white4 (PyFloat 1) = Ok img_out /\
    shape0 img_out = 4 /\ shape1 img_out = 4 /\ rectangular img_out /\
    getitem img_out 2 2 = Ok white /\
    getitem img_out 0 0 = Ok white.
Proof.
  destruct white4_corner as [img_out [Hrun [Hshape Hcorner]]].
  destruct white4_middle as [img_out' [Hrun' Hmiddle]].
  rewrite Hrun in Hrun'. injection Hrun' as <-.
  destruct (has_shape_rectangular img_out 4 4 Hshape ltac:(lia))
    as [Hrect [H0 H1]].
  exists img_out. repeat split; assumption.
Qed.

(** ** The angles of the grid *)

(** C9, as stated, fails at the first column: for t = 0 the angle is
    exactly -pi/2, which is not strictly inside (-pi/2, pi/2). *)
Lemma first_column_angle_on_the_edge :
  exists theta,
    cell_theta 0 1 = Ok theta /\
    theta = (- (PI / 2))%R /\
    ~ (- (PI / 2) < theta < PI / 2)%R.
Proof.
  exists (- (PI / 2))%R. split; [apply cell_theta_first; lia |].
  split; [reflexivity | lra].
Qed.

Lemma grid_angle_bounds (i n : Z) :
  0 <= i < n ->
  let a := (IZR i / IZR n * PI - PI / 2)%R in
  (- (PI / 2) <= a < PI / 2)%R /\
  (a = (- (PI / 2))%R <-> i = 0) /\
  (1 <= i -> (- (PI / 2) < a < PI / 2)%R).
Proof.
  intros Hi a. pose proof PI_RGT_0 as Hpi.
  assert (Hn : (0 < IZR n)%R) by (apply IZR_lt; lia).
  assert (Hi0 : (0 <= IZR i)%R) by (apply IZR_le; lia).
  assert (Hin : (IZR i < IZR n)%R) by (apply IZR_lt; lia).
  assert (Hq0 : (0 <= IZR i / IZR n)%R) by (apply Rle_mult_inv_pos; lra).
  assert (Hq1 : (IZR i / IZR n < 1)%R).
  { apply (Rmult_lt_reg_r (IZR n)); [assumption |].
    replace (IZR i / IZR n * IZR n)%R with (IZR i) by (field; lra). lra. }
  assert (Hpos : 1 <= i -> (0 < IZR i / IZR n)%R).
  { intros H1. apply Rdiv_lt_0_compat; [apply IZR_lt; lia | assumption]. }
  unfold a. split; [split; nra |]. split.
  - split.
    + intros Ha. destruct (Z.eq_dec i 0) as [-> | Hne]; [reflexivity |].
      specialize (Hpos ltac:(lia)). nra.
    + intros ->. lra.
  - intros H1. specialize (Hpos H1). split; nra.
Qed.

(** C9 (amended): for every output cell visited by the loop, with
    [0 <= t < W] and [0 <= p < W], the angle [theta = t / W * pi - pi / 2]
    lies in the half-open interval [-pi/2, pi/2), and likewise [phi] for
    row [p]; the lower end -pi/2 is reached exactly at index 0, and the
    angle is strictly inside (-pi/2, pi/2) for every index from 1 on. *)
Theorem grid_angles_half_open (w t p : Z) :
  0 <= t < w -> 0 <= p < w ->
  exists theta phi,
    cell_theta t w = Ok theta /\ cell_phi p w = Ok phi /\
    theta = (IZR t / IZR w * PI - PI / 2)%R /\
    phi = (IZR p / IZR w * PI - PI / 2)%R /\
    (- (PI / 2) <= theta < PI / 2)%R /\
    (- (PI / 2) <= phi < PI / 2)%R /\
    (theta = (- (PI / 2))%R <-> t = 0) /\
    (phi = (- (PI / 2))%R <-> p = 0) /\
    (1 <= t -> (- (PI / 2) < theta < PI / 2)%R) /\
    (1 <= p -> (- (PI / 2) < phi < PI / 2)%R).
Proof.
  intros Ht Hp.
  exists (IZR t / IZR w * PI - PI / 2)%R, (IZR p / IZR w * PI - PI / 2)%R.
  destruct (grid_angle_bounds t w Ht) as [Ht1 [Ht2 Ht3]].
  destruct (grid_angle_bounds p w Hp) as [Hp1 [Hp2 Hp3]].
  assert (Hw : IZR w <> 0%R) by (apply not_0_IZR; lia).
  split.
  { rewrite cell_theta_ok by lia. f_equal.
    unfold theta_min, theta_max. field. assumption. }
  split.
  { rewrite cell_phi_ok by lia. f_equal.
    unfold phi_min, phi_max. field. assumption. }
  repeat (split; [reflexivity || assumption |]). assumption.
Qed.

Lemma grid_angles_half_open_witness :
  exists theta phi,
    cell_theta 1 4 = Ok theta /\ cell_phi 0 4 = Ok phi /\
    theta = (IZR 1 / IZR 4 * PI - PI / 2)%R /\
    phi = (IZR 0 / IZR 4 * PI - PI / 2)%R /\
    (- (PI / 2) <= theta < PI / 2)%R /\
    (- (PI / 2) <= phi < PI / 2)%R /\
    (theta = (- (PI / 2))%R <-> 1 = 0) /\
    (phi = (- (PI / 2))%R <-> 0 = 0) /\
    (1 <= 1 -> (- (PI / 2) < theta < PI / 2)%R) /\
    (1 <= 0 -> (- (PI / 2) < phi < PI / 2)%R).
Proof.
  apply (grid_angles_half_open 4 1 0); lia.
Defined.

(** ** Guarded reads *)

(** C10: the input image is read only under the guard
    [x in range(W) and y in range(H)], and under that guard the read of a
    well-formed image returns a pixel.  Hence the remapping never raises
    [IndexError], whatever the coverage, and returns an image for every
    coverage for which the diameter is defined, that is, every non-zero
    coverage. *)
Theorem guarded_input_access (img_in : ndarray) (coverage : number) :
  rectangular img_in ->
  (forall x y,
     py_in x (range (shape1 img_in)) && py_in y (range (shape0 img_in))
     = true ->
     exists v, getitem img_in y x = Ok v) /\
  img_cyl2sph img_in coverage <> Raise IndexError /\
  (to_float coverage <> 0%R ->
   exists img_out, img_cyl2sph img_in coverage = Ok img_out).
Proof.
  intros Hrect.
  assert (Hrun : to_float coverage <> 0%R ->
                 exists img_out, img_cyl2sph img_in coverage = Ok img_out).
  { intros Hcov. destruct (diameter_nonzero img_in coverage Hcov) as [d Hd].
    destruct (img_cyl2sph_cells img_in coverage d Hrect Hd)
      as [img_out [Hok _]].
    now exists img_out. }
  split; [| split; [| exact Hrun]].
  - intros x y Hguard. rewrite guard_in_bounds in Hguard.
    eexists. now apply in_bounds_getitem.
  - destruct (Req_dec_T (to_float coverage) 0) as [Hz | Hnz].
    + unfold img_cyl2sph. rewrite (diameter_zero img_in coverage Hz).
      discriminate.
    + destruct (Hrun Hnz) as [img_out ->]. discriminate.
Qed.

Lemma guarded_input_access_witness :
  img_cyl2sph [[white; black]] (PyFloat 2) <> Raise IndexError /\
  exists img_out, img_cyl2sph [[white; black]] (PyFloat 2) = Ok img_out.
Proof.
  split.
  - apply (guarded_input_access [[white; black]] (PyFloat 2)).
    repeat constructor.
  - apply (guarded_input_access [[white; black]] (PyFloat 2)).
    + repeat constructor.
    + cbn [to_float]. lra.
Defined.

(** * Further properties of the code *)

(** ** Truncation *)

Lemma Int_part_bounds (r : R) : (r - 1 < IZR (Int_part r) <= r)%R.
Proof.
  destruct (base_Int_part r) as [Hle Hgt]. lra.
Qed.

Lemma Int_part_monotone (r1 r2 : R) :
  (r1 <= r2)%R -> Int_part r1 <= Int_part r2.
Proof.
  intros Hr. pose proof (Int_part_bounds r1) as H1.
  pose proof (Int_part_bounds r2) as H2.
  assert (Hlt : (IZR (Int_part r1) < IZR (Int_part r2 + 1))%R).
  { rewrite plus_IZR. lra. }
  apply lt_IZR in Hlt. lia.
Qed.

Lemma Int_part_nonneg (r : R) : (0 <= r)%R -> 0 <= Int_part r.
Proof.
  intros Hr. rewrite <- (Int_part_IZR 0). now apply Int_part_monotone.
Qed.

Lemma py_int_nonneg_arg (r : R) : (-1 < r)%R -> 0 <= py_int r.
Proof.
  intros Hr. destruct (Rlt_dec r 1) as [Hsmall | Hbig].
  - rewrite py_int_small by lra. lia.
  - unfold py_int. destruct (Rle_dec 0 r) as [Hpos | Hneg]; [| lra].
    now apply Int_part_nonneg.
Qed.

Lemma py_int_monotone (r1 r2 : R) : (r1 <= r2)%R -> py_int r1 <= py_int r2.
Proof.
  intros Hr. unfold py_int.
  destruct (Rle_dec 0 r1) as [H1 | H1]; destruct (Rle_dec 0 r2) as [H2 | H2].
  - now apply Int_part_monotone.
  - lra.
  - pose proof (Int_part_nonneg (- r1) ltac:(lra)).
    pose proof (Int_part_nonneg r2 H2). lia.
  - pose proof (Int_part_monotone (- r2) (- r1) ltac:(lra)). lia.
Qed.

(** ** Images as tables of cells *)

(** Two images of the same shape with the same cells are equal. *)
Lemma ndarray_ext (a b : ndarray) (h w : Z) :
  has_shape a h w -> has_shape b h w ->
  (forall i j, 0 <= i < h -> 0 <= j < w ->
     pix a (Z.to_nat i) (Z.to_nat j) = pix b (Z.to_nat i) (Z.to_nat j)) ->
  a = b.
Proof.
  intros Ha Hb Hcells.
  pose proof (has_shape_length a h w Ha) as Hla.
  pose proof (has_shape_length b h w Hb) as Hlb.
  apply (nth_ext a b [] []); [lia |].
  intros i Hi.
  pose proof (has_shape_row a h w i Ha Hi) as Hra.
  pose proof (has_shape_row b h w i Hb ltac:(lia)) as Hrb.
  apply (nth_ext _ _ black black); [lia |].
  intros j Hj. specialize (Hcells (Z.of_nat i) (Z.of_nat j)).
  rewrite !Nat2Z.id in Hcells. apply Hcells; lia.
Qed.

(** A property of all cells is a property of all pixels of the image. *)
Lemma cells_Forall (P : pixel -> Prop) (a : ndarray) (h w : Z) :
  has_shape a h w ->
  (forall i j, 0 <= i < h -> 0 <= j < w ->
     P (pix a (Z.to_nat i) (Z.to_nat j))) ->
  Forall (Forall P) a.
Proof.
  intros Ha Hcells.
  apply Forall_nth. intros i dflt Hi.
  apply Forall_nth. intros j dflt' Hj.
  pose proof (has_shape_length a h w Ha) as Hlen.
  pose proof (has_shape_row a h w i Ha Hi) as Hrow.
  rewrite (nth_indep a dflt []) in * by assumption.
  rewrite (nth_indep _ dflt' black) by assumption.
  specialize (Hcells (Z.of_nat i) (Z.of_nat j)).
  rewrite !Nat2Z.id in Hcells. apply Hcells; lia.
Qed.

Lemma pix_in_concat (a : ndarray) (h w x y : Z) :
  has_shape a h w -> 0 <= y < h -> 0 <= x < w ->
  In (pix a (Z.to_nat y) (Z.to_nat x)) (concat a).
Proof.
  intros Ha Hy Hx. pose proof (has_shape_length a h w Ha) as Hlen.
  assert (Hi : (Z.to_nat y < length a)%nat) by lia.
  pose proof (has_shape_row a h w _ Ha Hi) as Hrow.
  apply in_concat. exists (nth (Z.to_nat y) a []). split.
  - now apply nth_In.
  - unfold pix. apply nth_In. lia.
Qed.

Lemma pix_map_pixels (f : pixel -> pixel) (a : ndarray) (i j : nat) :
  f black = black -> pix (map_pixels f a) i j = f (pix a i j).
Proof.
  intros Hf. unfold pix, map_pixels.
  change (@nil pixel) with (map f []) at 1. rewrite map_nth.
  rewrite <- Hf at 1. apply map_nth.
Qed.

Lemma shape0_map_pixels (f : pixel -> pixel) (a : ndarray) :
  shape0 (map_pixels f a) = shape0 a.
Proof. unfold shape0, map_pixels. now rewrite length_map. Qed.

Lemma shape1_map_pixels (f : pixel -> pixel) (a : ndarray) :
  shape1 (map_pixels f a) = shape1 a.
Proof.
  unfold shape1, map_pixels. destruct a as [| row a]; simpl;
    [reflexivity | now rewrite length_map].
Qed.

Lemma has_shape_map_pixels (f : pixel -> pixel) (a : ndarray) (h w : Z) :
  has_shape a h w -> has_shape (map_pixels f a) h w.
Proof.
  intros [Hh Hrows]. split.
  - now rewrite shape0_map_pixels.
  - unfold map_pixels. apply Forall_map.
    apply (Forall_impl _ (P := fun row => Z.of_nat (length row) = w));
      [| assumption].
    intros row Hrow. now rewrite length_map.
Qed.

Lemma rectangular_map_pixels (f : pixel -> pixel) (a : ndarray) :
  rectangular a -> rectangular (map_pixels f a).
Proof.
  intros Hr. unfold rectangular. rewrite shape1_map_pixels.
  apply (has_shape_map_pixels f a (shape0 a) (shape1 a)).
  now apply rectangular_has_shape.
Qed.

(** ** The converters, further *)

Lemma cyl2sph_inv (x y d theta phi : R) :
  cyl2sph x y d = Ok (theta, phi) ->
  d <> 0%R /\ cos (x / d) <> 0%R /\
  theta = (x / d)%R /\ phi = atan (y / cos (x / d) / d).
Proof.
  unfold cyl2sph, fdiv. intros Hrun.
  destruct (Req_dec_T d 0) as [Hd | Hd]; [discriminate |]. cbn [bind] in Hrun.
  destruct (Req_dec_T (cos (x / d)) 0) as [Hc | Hc]; [discriminate |].
  cbn [bind] in Hrun.
  destruct (Req_dec_T d 0) as [Hd' | _]; [contradiction |].
  cbn [bind] in Hrun. injection Hrun as <- <-. auto.
Qed.

Lemma cyl2sph_ok (x y d : R) :
  d <> 0%R -> cos (x / d) <> 0%R ->
  cyl2sph x y d = Ok ((x / d)%R, atan (y / cos (x / d) / d)).
Proof.
  intros Hd Hc. unfold cyl2sph. rewrite fdiv_ok by assumption. cbn [bind].
  rewrite fdiv_ok by assumption. cbn [bind].
  now rewrite fdiv_ok by assumption.
Qed.

(** X1: the round trip in the other direction.  Whenever [cyl2sph]
    returns, that is for [d <> 0] and [cos (x / d) <> 0], [sph2cyl] applied
    to its result with the same [d] gives back [(x, y)]. *)
Theorem sph2cyl_cyl2sph_inverse (x y d : R) :
  d <> 0%R -> cos (x / d) <> 0%R ->
  exists theta phi,
    cyl2sph x y d = Ok (theta, phi) /\
    sph2cyl theta phi d = (x, y).
Proof.
  intros Hd Hc. do 2 eexists. split; [now apply cyl2sph_ok |].
  unfold sph2cyl. rewrite tan_atan. f_equal; field; auto.
Qed.

Lemma sph2cyl_cyl2sph_inverse_witness :
  exists theta phi,
    cyl2sph 3 5 (-2) = Ok (theta, phi) /\
    sph2cyl theta phi (-2) = (3%R, 5%R).
Proof.
  apply (sph2cyl_cyl2sph_inverse 3 5 (-2)); [lra |].
  replace (3 / -2)%R with (- (3 / 2))%R by lra. rewrite cos_neg.
  pose proof PI2_3_2 as Hpi.
  apply Rgt_not_eq. apply cos_gt_0; lra.
Defined.



(** X3: the angles [cyl2sph] returns: the azimuth is [x / d], and the
    elevation always lies strictly inside (-pi/2, pi/2), whatever [y]. *)
Theorem cyl2sph_elevation_range (x y d theta phi : R) :
  cyl2sph x y d = Ok (theta, phi) ->
  theta = (x / d)%R /\ (- (PI / 2) < phi < PI / 2)%R.
Proof.
  intros Hrun. destruct (cyl2sph_inv _ _ _ _ _ Hrun) as [_ [_ [-> ->]]].
  split; [reflexivity |].
  pose proof (atan_bound (y / cos (x / d) / d)) as Hb. lra.
Qed.

Lemma cyl2sph_elevation_range_witness :
  (0 / 1)%R = (0 / 1)%R /\
  (- (PI / 2) < atan (1 / cos (0 / 1) / 1) < PI / 2)%R.
Proof.
  apply (cyl2sph_elevation_range 0 1 1).
  apply cyl2sph_ok; [lra |].
  replace (0 / 1)%R with 0%R by lra. rewrite cos_0. lra.
Defined.

(** X4: both converters are symmetric about the two axes through the
    fovea: negating the azimuth (or [x]) negates [x] (or the azimuth) and
    leaves the other coordinate alone, and likewise for the elevation and
    [y]. *)
Theorem converters_symmetric (a b d : R) :
  sph2cyl (- a) b d
  = ((- fst (sph2cyl a b d))%R, snd (sph2cyl a b d)) /\
  sph2cyl a (- b) d
  = (fst (sph2cyl a b d), (- snd (sph2cyl a b d))%R) /\
  (forall theta phi, cyl2sph a b d = Ok (theta, phi) ->
     cyl2sph (- a) b d = Ok ((- theta)%R, phi) /\
     cyl2sph a (- b) d = Ok (theta, (- phi)%R)).
Proof.
  split; [| split].
  - unfold sph2cyl. cbn [fst snd]. rewrite cos_neg. f_equal. lra.
  - unfold sph2cyl. cbn [fst snd]. rewrite tan_neg. f_equal. lra.
  - intros theta phi Hrun.
    destruct (cyl2sph_inv _ _ _ _ _ Hrun) as [Hd [Hc [-> ->]]].
    assert (Hneg : (- a / d)%R = (- (a / d))%R) by (field; assumption).
    split.
    + rewrite cyl2sph_ok; [| assumption | rewrite Hneg, cos_neg; assumption].
      now rewrite Hneg, cos_neg.
    + rewrite cyl2sph_ok by assumption. f_equal. f_equal.
      rewrite <- atan_opp. f_equal. field. auto.
Qed.

Lemma converters_symmetric_witness :
  cyl2sph (- 0) 1 1 = Ok ((- (0 / 1))%R, atan (1 / cos (0 / 1) / 1)).
Proof.
  apply (converters_symmetric 0 1 1).
  apply cyl2sph_ok; [lra |].
  replace (0 / 1)%R with 0%R by lra. rewrite cos_0. lra.
Defined.

(** X5: the converters do not depend on the unit of length.  Scaling [d]
    by [k] scales the cylindrical coordinates [sph2cyl] returns by [k];
    scaling [x], [y] and [d] together by a non-zero [k] leaves the outcome
    of [cyl2sph], angles or exception, unchanged. *)
Theorem converters_unit_free (k : R) :
  (forall theta phi d,
     sph2cyl theta phi (k * d)
     = ((k * fst (sph2cyl theta phi d))%R,
        (k * snd (sph2cyl theta phi d))%R)) /\
  (k <> 0%R ->
   forall x y d, cyl2sph (k * x) (k * y) (k * d) = cyl2sph x y d).
Proof.
  split.
  - intros theta phi d. unfold sph2cyl. cbn [fst snd]. f_equal; ring.
  - intros Hk x y d. destruct (Req_dec_T d 0) as [-> | Hd].
    + unfold cyl2sph. replace (k * 0)%R with 0%R by ring.
      now rewrite !fdiv_zero.
    + assert (Hkd : (k * d)%R <> 0%R) by (apply Rmult_integral_contrapositive; auto).
      assert (Hq : (k * x / (k * d))%R = (x / d)%R) by (field; auto).
      unfold cyl2sph. rewrite !(fdiv_ok _ (k * d)) by assumption.
      rewrite !(fdiv_ok _ d) by assumption. cbn [bind]. rewrite Hq.
      unfold fdiv. destruct (Req_dec_T (cos (x / d)) 0) as [Hc | Hc];
        [reflexivity |].
      cbn [bind]. destruct (Req_dec_T (k * d) 0) as [Hz | _];
        [contradiction |].
      destruct (Req_dec_T d 0) as [Hz | _]; [contradiction |].
      cbn [bind]. do 3 f_equal. field. auto.
Qed.

Lemma converters_unit_free_witness :
  cyl2sph (2 * 1) (2 * 1) (2 * 1) = cyl2sph 1 1 1.
Proof.
  apply (converters_unit_free 2). lra.
Defined.

(** ** The remapper, further *)

Lemma img_cyl2sph_raise (img_in : ndarray) (coverage : number) (e : exn) :
  diameter img_in coverage = Raise e -> img_cyl2sph img_in coverage = Raise e.
Proof. intros Hd. unfold img_cyl2sph. now rewrite Hd. Qed.

Lemma diameter_cases (img_in : ndarray) (coverage : number) :
  (to_float coverage = 0%R /\
   diameter img_in coverage = Raise ZeroDivisionError) \/
  (to_float coverage <> 0%R /\ exists d, diameter img_in coverage = Ok d).
Proof.
  destruct (Req_dec_T (to_float coverage) 0) as [Hz | Hnz].
  - left. split; [assumption | now apply diameter_zero].
  - right. split; [assumption | now apply diameter_nonzero].
Qed.

(** The cells of the returned image, read without going through
    [getitem]. *)
Lemma img_cyl2sph_pix (img_in : ndarray) (coverage : number) (d : R) :
  rectangular img_in ->
  diameter img_in coverage = Ok d ->
  exists img_out,
    img_cyl2sph img_in coverage = Ok img_out /\
    has_shape img_out (shape1 img_in) (shape1 img_in) /\
    forall i j, 0 <= i < shape1 img_in -> 0 <= j < shape1 img_in ->
      pix img_out (Z.to_nat i) (Z.to_nat j) = cell_value img_in d j i black.
Proof.
  intros Hrect Hd.
  destruct (img_cyl2sph_cells img_in coverage d Hrect Hd)
    as [img_out [Hrun [Hshape Hcells]]].
  exists img_out. split; [assumption |]. split; [assumption |].
  intros i j Hi Hj. specialize (Hcells i j Hi Hj).
  rewrite (getitem_in img_out (shape1 img_in) (shape1 img_in)) in Hcells
    by assumption.
  now injection Hcells.
Qed.



(** X7: an image without columns, the empty image included, is remapped
    to the empty image for every non-zero coverage: the loops do not run. *)
Theorem img_cyl2sph_no_columns (img_in : ndarray) (coverage : number) :
  shape1 img_in = 0 ->
  to_float coverage <> 0%R ->
  img_cyl2sph img_in coverage = Ok [].
Proof.
  intros Hw Hcov. destruct (diameter_nonzero img_in coverage Hcov) as [d Hd].
  unfold img_cyl2sph. rewrite Hd, Hw. reflexivity.
Qed.

Lemma img_cyl2sph_no_columns_witness :
  img_cyl2sph [[]; []; []] (PyFloat (1 / 2)) = Ok [].
Proof.
  apply (img_cyl2sph_no_columns [[]; []; []] (PyFloat (1 / 2))).
  - reflexivity.
  - cbn [to_float]. lra.
Defined.

Lemma cell_value_black_or_from (img_in : ndarray) (d : R) (t p : Z) :
  rectangular img_in -> black_or_from img_in (cell_value img_in d t p black).
Proof.
  intros Hrect. unfold cell_value, black_or_from.
  destruct (source_coord img_in d t p) as [[x y] | e]; [| now left].
  destruct (in_bounds img_in x y) eqn:Hb; [| now left].
  right. apply in_bounds_spec in Hb.
  apply (pix_in_concat img_in (shape0 img_in) (shape1 img_in)); try tauto.
  now apply rectangular_has_shape.
Qed.

(** X8: the remapping invents no colour: for a well-formed image and a
    non-zero coverage, every pixel of the image it returns is black or is
    a pixel that occurs in the input image. *)
Theorem img_cyl2sph_no_new_pixel (img_in : ndarray) (coverage : number) :
  rectangular img_in ->
  to_float coverage <> 0%R ->
  exists img_out,
    img_cyl2sph img_in coverage = Ok img_out /\
    Forall (Forall (black_or_from img_in)) img_out.
Proof.
  intros Hrect Hcov.
  destruct (diameter_nonzero img_in coverage Hcov) as [d Hd].
  destruct (img_cyl2sph_pix img_in coverage d Hrect Hd)
    as [img_out [Hrun [Hshape Hcells]]].
  exists img_out. split; [assumption |].
  apply (cells_Forall _ img_out _ _ Hshape). intros i j Hi Hj.
  rewrite Hcells by assumption. now apply cell_value_black_or_from.
Qed.

Lemma img_cyl2sph_no_new_pixel_witness :
  exists img_out,
    img_cyl2sph [[white; black]] (PyFloat (-3)) = Ok img_out /\
    Forall (Forall (black_or_from [[white; black]])) img_out.
Proof.
  apply (img_cyl2sph_no_new_pixel [[white; black]] (PyFloat (-3))).
  - repeat constructor.
  - cbn [to_float]. lra.
Defined.

Lemma zeros_rectangular (h w : Z) :
  1 <= h -> 0 <= w ->
  rectangular (zeros h w) /\ shape0 (zeros h w) = h /\ shape1 (zeros h w) = w.
Proof.
  intros Hh Hw. apply has_shape_rectangular; [| assumption].
  apply zeros_has_shape; lia.
Qed.

Lemma cell_value_zeros (h w : Z) (d : R) (t p : Z) :
  cell_value (zeros h w) d t p black = black.
Proof.
  unfold cell_value.
  destruct (source_coord (zeros h w) d t p) as [[x y] | e]; [| reflexivity].
  destruct (in_bounds (zeros h w) x y); [apply pix_zeros | reflexivity].
Qed.

(** X9: an all-black image of height [h >= 1] and width [w] is remapped to
    the all-black square image of side [w], for every non-zero coverage. *)
Theorem img_cyl2sph_black (h w : Z) (coverage : number) :
  1 <= h -> 0 <= w ->
  to_float coverage <> 0%R ->
  img_cyl2sph (zeros h w) coverage = Ok (zeros w w).
Proof.
  intros Hh Hw Hcov.
  destruct (zeros_rectangular h w Hh Hw) as [Hrect [_ Hw1]].
  destruct (diameter_nonzero (zeros h w) coverage Hcov) as [d Hd].
  destruct (img_cyl2sph_pix (zeros h w) coverage d Hrect Hd)
    as [img_out [Hrun [Hshape Hcells]]].
  rewrite Hw1 in Hshape, Hcells. rewrite Hrun. f_equal.
  apply (ndarray_ext img_out (zeros w w) w w);
    [assumption | now apply zeros_has_shape |].
  intros i j Hi Hj. rewrite Hcells by assumption.
  now rewrite cell_value_zeros, pix_zeros.
Qed.

Lemma img_cyl2sph_black_witness :
  img_cyl2sph (zeros 2 3) (PyFloat (9 / 10)) = Ok (zeros 3 3).
Proof.
  apply (img_cyl2sph_black 2 3 (PyFloat (9 / 10))); try lia.
  cbn [to_float]. lra.
Defined.

Lemma diameter_map_pixels (f : pixel -> pixel) (img_in : ndarray)
  (coverage : number) :
  diameter (map_pixels f img_in) coverage = diameter img_in coverage.
Proof. unfold diameter. now rewrite shape1_map_pixels. Qed.

Lemma in_bounds_map_pixels (f : pixel -> pixel) (img_in : ndarray) (x y : Z) :
  in_bounds (map_pixels f img_in) x y = in_bounds img_in x y.
Proof.
  unfold in_bounds. now rewrite shape0_map_pixels, shape1_map_pixels.
Qed.

Lemma source_coord_map_pixels (f : pixel -> pixel) (img_in : ndarray) (d : R)
  (t p : Z) :
  source_coord (map_pixels f img_in) d t p = source_coord img_in d t p.
Proof.
  unfold source_coord, x_center, y_center.
  now rewrite shape0_map_pixels, shape1_map_pixels.
Qed.

Lemma cell_value_map_pixels (f : pixel -> pixel) (img_in : ndarray) (d : R)
  (t p : Z) :
  f black = black ->
  cell_value (map_pixels f img_in) d t p black
  = f (cell_value img_in d t p black).
Proof.
  intros Hf. unfold cell_value. rewrite source_coord_map_pixels.
  destruct (source_coord img_in d t p) as [[x y] | e]; [| now rewrite Hf].
  rewrite in_bounds_map_pixels.
  destruct (in_bounds img_in x y); [now apply pix_map_pixels | now rewrite Hf].
Qed.

(** X10: the remapping commutes with every colour transform that keeps
    black black (a permutation of the channels, for instance): remapping
    the transformed image gives the transformed remapped image, and fails
    when the remapping of the original fails. *)
Theorem img_cyl2sph_map_pixels (f : pixel -> pixel) (img_in : ndarray)
  (coverage : number) :
  f black = black ->
  rectangular img_in ->
  img_cyl2sph (map_pixels f img_in) coverage
  = map_result f (img_cyl2sph img_in coverage).
Proof.
  intros Hf Hrect.
  destruct (diameter_cases img_in coverage) as [[Hz Hd] | [Hnz [d Hd]]].
  - rewrite (img_cyl2sph_raise img_in _ _ Hd).
    apply img_cyl2sph_raise. now rewrite diameter_map_pixels.
  - destruct (img_cyl2sph_pix img_in coverage d Hrect Hd)
      as [out [Hrun [Hshape Hcells]]].
    destruct (img_cyl2sph_pix (map_pixels f img_in) coverage d)
      as [out' [Hrun' [Hshape' Hcells']]];
      [now apply rectangular_map_pixels | now rewrite diameter_map_pixels |].
    rewrite shape1_map_pixels in Hshape', Hcells'.
    rewrite Hrun, Hrun'. cbn [map_result]. f_equal.
    apply (ndarray_ext out' (map_pixels f out) _ _ Hshape');
      [now apply has_shape_map_pixels |].
    intros i j Hi Hj. rewrite Hcells' by assumption.
    rewrite pix_map_pixels by assumption. rewrite Hcells by assumption.
    now apply cell_value_map_pixels.
Qed.

Lemma img_cyl2sph_map_pixels_witness :
  let swap := fun v : pixel => let '(b, g, r) := v in (r, g, b) in
  img_cyl2sph (map_pixels swap [[(1, 2, 3); (4, 5, 6)]]) (PyInt 1)
  = map_result swap (img_cyl2sph [[(1, 2, 3); (4, 5, 6)]] (PyInt 1)).
Proof.
  intros swap.
  apply (img_cyl2sph_map_pixels swap [[(1, 2, 3); (4, 5, 6)]] (PyInt 1)).
  - reflexivity.
  - repeat constructor.
Defined.

(** ** The geometry of the source coordinates *)

Lemma source_coord_formula (img_in : ndarray) (d : R) (t p : Z) :
  shape1 img_in <> 0 ->
  source_coord img_in d t p
  = Ok (py_int (d * (IZR t / IZR (shape1 img_in) * PI - PI / 2)
                + IZR (x_center img_in)),
        py_int (d * tan (IZR p / IZR (shape1 img_in) * PI - PI / 2)
                * cos (IZR t / IZR (shape1 img_in) * PI - PI / 2)
                + IZR (y_center img_in))).
Proof.
  intros Hw. unfold source_coord.
  rewrite (cell_theta_ok t) by assumption.
  rewrite (cell_phi_ok p) by assumption. cbn [bind sph2cyl fst snd].
  assert (Hth : forall q : R,
            (q * (theta_max - theta_min) + theta_min)%R
            = (q * PI - PI / 2)%R).
  { intros q. unfold theta_min, theta_max. field. }
  assert (Hph : forall q : R,
            (q * (phi_max - phi_min) + phi_min)%R = (q * PI - PI / 2)%R).
  { intros q. unfold phi_min, phi_max. field. }
  now rewrite Hth, Hph.
Qed.

Lemma diameter_valid_pos (img_in : ndarray) (coverage : number) :
  valid_coverage coverage -> 1 <= shape1 img_in ->
  exists d, diameter img_in coverage = Ok d /\ (0 < d)%R.
Proof.
  intros Hcov Hw. eexists. split; [now apply diameter_valid |].
  unfold valid_coverage in Hcov. pose proof PI_RGT_0 as Hpi.
  assert (HW : (0 < IZR (shape1 img_in))%R) by (apply IZR_lt; lia).
  apply Rdiv_lt_0_compat; [| assumption].
  apply Rdiv_lt_0_compat; lra.
Qed.

Lemma grid_angle_monotone (i i' n : Z) :
  0 < n -> i <= i' ->
  (IZR i / IZR n * PI - PI / 2 <= IZR i' / IZR n * PI - PI / 2)%R.
Proof.
  intros Hn Hi. pose proof PI_RGT_0 as Hpi.
  assert (HN : (0 < IZR n)%R) by (apply IZR_lt; lia).
  assert (HI : (IZR i <= IZR i')%R) by (apply IZR_le; lia).
  assert (Hq : (IZR i / IZR n <= IZR i' / IZR n)%R).
  { unfold Rdiv. apply Rmult_le_compat_r; [| assumption].
    left. now apply Rinv_0_lt_compat. }
  nra.
Qed.

(** X11: for a valid coverage the source column does not decrease from
    one output column to the next, and does not depend on the row: the
    remapping never swaps or mirrors columns. *)
Theorem source_column_monotone (img_in : ndarray) (coverage : number)
  (t t' p p' : Z) :
  valid_coverage coverage ->
  0 <= t -> t <= t' -> t' < shape1 img_in ->
  exists d x y x' y',
    diameter img_in coverage = Ok d /\
    source_coord img_in d t p = Ok (x, y) /\
    source_coord img_in d t' p' = Ok (x', y') /\
    x <= x' /\ (t = t' -> x = x').
Proof.
  intros Hcov Ht Htt Ht'.
  destruct (diameter_valid_pos img_in coverage Hcov) as [d [Hd Hpos]];
    [lia |].
  exists d. do 4 eexists. split; [exact Hd |].
  rewrite !source_coord_formula by lia.
  split; [reflexivity |]. split; [reflexivity |]. split.
  - apply py_int_monotone.
    pose proof (grid_angle_monotone t t' (shape1 img_in) ltac:(lia) Htt).
    nra.
  - now intros ->.
Qed.

Lemma source_column_monotone_witness :
  exists d x y x' y',
    diameter [[white; black; white]] (PyFloat (1 / 2)) = Ok d /\
    source_coord [[white; black; white]] d 0 0 = Ok (x, y) /\
    source_coord [[white; black; white]] d 2 1 = Ok (x', y') /\
    x <= x' /\ (0 = 2 -> x = x').
Proof.
  apply (source_column_monotone [[white; black; white]] (PyFloat (1 / 2))).
  - unfold valid_coverage. cbn [to_float]. lra.
  - lia.
  - lia.
  - simpl. lia.
Defined.

Lemma tan_monotone (a b : R) :
  (- (PI / 2) < a)%R -> (a <= b)%R -> (b < PI / 2)%R -> (tan a <= tan b)%R.
Proof.
  intros Ha Hab Hb. destruct Hab as [Hlt | ->]; [| lra].
  left. apply tan_increasing; lra.
Qed.

(** X12: for a valid coverage and a fixed output column, the source row
    does not decrease from one output row to the next, from row 1 on (row
    0 sits on the pole of the tangent): the remapping never swaps or flips
    rows. *)
Theorem source_row_monotone (img_in : ndarray) (coverage : number)
  (t p p' : Z) :
  valid_coverage coverage ->
  0 <= t < shape1 img_in ->
  1 <= p -> p <= p' -> p' < shape1 img_in ->
  exists d x y x' y',
    diameter img_in coverage = Ok d /\
    source_coord img_in d t p = Ok (x, y) /\
    source_coord img_in d t p' = Ok (x', y') /\
    y <= y'.
Proof.
  intros Hcov Ht Hp Hpp Hp'.
  destruct (diameter_valid_pos img_in coverage Hcov) as [d [Hd Hpos]];
    [lia |].
  exists d. do 4 eexists. split; [exact Hd |].
  rewrite !source_coord_formula by lia.
  split; [reflexivity |]. split; [reflexivity |].
  apply py_int_monotone.
  destruct (grid_angle_bounds t (shape1 img_in) Ht) as [[Hlo Hhi] _].
  destruct (grid_angle_bounds p (shape1 img_in) ltac:(lia)) as [_ [_ Hin]].
  destruct (grid_angle_bounds p' (shape1 img_in) ltac:(lia)) as [_ [_ Hin']].
  specialize (Hin Hp). specialize (Hin' ltac:(lia)). cbv zeta in *.
  pose proof (grid_angle_monotone p p' (shape1 img_in) ltac:(lia) Hpp) as Hm.
  assert (Hcos : (0 <= cos (IZR t / IZR (shape1 img_in) * PI - PI / 2))%R)
    by (apply cos_ge_0; lra).
  assert (Htan : (tan (IZR p / IZR (shape1 img_in) * PI - PI / 2)
                  <= tan (IZR p' / IZR (shape1 img_in) * PI - PI / 2))%R)
    by (apply tan_monotone; lra).
  apply Rplus_le_compat_r. apply Rmult_le_compat_r; [assumption |].
  apply Rmult_le_compat_l; [lra | assumption].
Qed.

Lemma source_row_monotone_witness :
  exists d x y x' y',
    diameter [[white; black; white]] (PyInt 1) = Ok d /\
    source_coord [[white; black; white]] d 0 1 = Ok (x, y) /\
    source_coord [[white; black; white]] d 0 2 = Ok (x', y') /\
    y <= y'.
Proof.
  apply (source_row_monotone [[white; black; white]] (PyInt 1)).
  - exact valid_coverage_one.
  - simpl. lia.
  - lia.
  - lia.
  - simpl. lia.
Defined.

Lemma middle_angle (w : Z) :
  1 <= w -> Z.even w = true ->
  (IZR (w / 2) / IZR w * PI - PI / 2)%R = 0%R.
Proof.
  intros Hw Heven. apply Z.even_spec in Heven. destruct Heven as [k ->].
  replace (2 * k / 2) with k
    by (apply (Z.div_unique (2 * k) 2 k 0); lia).
  rewrite mult_IZR.
  assert (Hk : IZR k <> 0%R) by (apply not_0_IZR; lia).
  field. assumption.
Qed.

Lemma center_in_bounds (img_in : ndarray) :
  1 <= shape1 img_in ->
  0 <= x_center img_in < shape1 img_in /\
  0 <= y_center img_in < shape0 img_in.
Proof.
  intros Hw. pose proof (rectangular_height img_in Hw) as Hh.
  unfold x_center, y_center. split; split;
    try (apply Z.div_pos; lia); apply Z.div_lt_upper_bound; lia.
Qed.

Lemma cell_value_getitem (img_in : ndarray) (d : R) (t p x y : Z) :
  rectangular img_in ->
  source_coord img_in d t p = Ok (x, y) ->
  Ok (cell_value img_in d t p black)
  = if in_bounds img_in x y then getitem img_in y x else Ok black.
Proof.
  intros Hrect Hsrc. rewrite (cell_value_source _ _ _ _ _ _ _ Hsrc).
  destruct (in_bounds img_in x y) eqn:Hb; [| reflexivity].
  symmetry. now apply in_bounds_getitem.
Qed.

(** X13: for an even width and any non-zero coverage, the middle row of
    the output is read from the centre row of the input only, and the
    middle column of the output from the centre column of the input only:
    each of their cells is the input pixel of that row (column) at the
    computed source column (row), or black when that index is out of
    range. *)
Theorem middle_row_and_column (img_in : ndarray) (coverage : number) :
  rectangular img_in ->
  1 <= shape1 img_in ->
  Z.even (shape1 img_in) = true ->
  to_float coverage <> 0%R ->
  exists d img_out,
    diameter img_in coverage = Ok d /\
    img_cyl2sph img_in coverage = Ok img_out /\
    (forall t, 0 <= t < shape1 img_in ->
       exists x,
         source_coord img_in d t (shape1 img_in / 2)
         = Ok (x, y_center img_in) /\
         getitem img_out (shape1 img_in / 2) t
         = if (0 <=? x) && (x <? shape1 img_in)
           then getitem img_in (y_center img_in) x else Ok black) /\
    (forall p, 0 <= p < shape1 img_in ->
       exists y,
         source_coord img_in d (shape1 img_in / 2) p
         = Ok (x_center img_in, y) /\
         getitem img_out p (shape1 img_in / 2)
         = if (0 <=? y) && (y <? shape0 img_in)
           then getitem img_in y (x_center img_in) else Ok black).
Proof.
  intros Hrect Hw Heven Hcov.
  destruct (diameter_nonzero img_in coverage Hcov) as [d Hd].
  destruct (img_cyl2sph_cells img_in coverage d Hrect Hd)
    as [img_out [Hrun [_ Hcells]]].
  pose proof (middle_angle (shape1 img_in) Hw Heven) as Hmid.
  destruct (center_in_bounds img_in Hw) as [Hxc Hyc].
  assert (Hhalf : 0 <= shape1 img_in / 2 < shape1 img_in) by exact Hxc.
  exists d, img_out. split; [assumption |]. split; [assumption |]. split.
  - intros t Ht.
    assert (Hsrc : exists x, source_coord img_in d t (shape1 img_in / 2)
                             = Ok (x, y_center img_in)).
    { eexists. rewrite source_coord_formula by lia. rewrite Hmid, tan_0.
      do 2 f_equal. rewrite <- (py_int_IZR (y_center img_in)) at 2.
      f_equal. ring. }
    destruct Hsrc as [x Hsrc]. exists x. split; [assumption |].
    rewrite (Hcells _ _ Hhalf Ht), (cell_value_getitem _ _ _ _ _ _ Hrect Hsrc).
    unfold in_bounds.
    replace ((0 <=? y_center img_in) && (y_center img_in <? shape0 img_in))
      with true; [now rewrite andb_true_r |].
    symmetry. apply andb_true_iff. rewrite Z.leb_le, Z.ltb_lt. lia.
  - intros p Hp.
    assert (Hsrc : exists y, source_coord img_in d (shape1 img_in / 2) p
                             = Ok (x_center img_in, y)).
    { eexists. rewrite source_coord_formula by lia. rewrite Hmid.
      do 2 f_equal. rewrite <- (py_int_IZR (x_center img_in)) at 2.
      f_equal. ring. }
    destruct Hsrc as [y Hsrc]. exists y. split; [assumption |].
    rewrite (Hcells _ _ Hp Hhalf), (cell_value_getitem _ _ _ _ _ _ Hrect Hsrc).
    unfold in_bounds.
    replace ((0 <=? x_center img_in) && (x_center img_in <? shape1 img_in))
      with true; [reflexivity |].
    symmetry. apply andb_true_iff. rewrite Z.leb_le, Z.ltb_lt. lia.
Qed.

Lemma middle_row_and_column_witness :
  exists d img_out,
    diameter white4 (PyFloat (1 / 3)) = Ok d /\
    img_cyl2sph white4 (PyFloat (1 / 3)) = Ok img_out /\
    (forall t, 0 <= t < shape1 white4 ->
       exists x,
         source_coord white4 d t (shape1 white4 / 2)
         = Ok (x, y_center white4) /\
         getitem img_out (shape1 white4 / 2) t
         = if (0 <=? x) && (x <? shape1 white4)
           then getitem white4 (y_center white4) x else Ok black) /\
    (forall p, 0 <= p < shape1 white4 ->
       exists y,
         source_coord white4 d (shape1 white4 / 2) p
         = Ok (x_center white4, y) /\
         getitem img_out p (shape1 white4 / 2)
         = if (0 <=? y) && (y <? shape0 white4)
           then getitem white4 y (x_center white4) else Ok black).
Proof.
  apply (middle_row_and_column white4 (PyFloat (1 / 3))).
  - exact rectangular_white4.
  - simpl. lia.
  - reflexivity.
  - cbn [to_float]. lra.
Defined.

(** X14: with the full coverage 1 (integer or float) the source column of
    the output column [t] is [t] or [t - 1] and always a valid column of
    the input: whether a cell is black then depends on its source row
    only. *)
Theorem full_coverage_columns (img_in : ndarray) (coverage : number)
  (t p : Z) :
  to_float coverage = 1%R ->
  0 <= t < shape1 img_in ->
  exists d x y,
    diameter img_in coverage = Ok d /\
    source_coord img_in d t p = Ok (x, y) /\
    t - 1 <= x <= t /\ 0 <= x < shape1 img_in.
Proof.
  intros Hcov Ht.
  assert (Hvalid : valid_coverage coverage)
    by (unfold valid_coverage; rewrite Hcov; lra).
  exists (IZR (shape1 img_in) / to_float coverage / PI)%R. do 2 eexists.
  split; [now apply diameter_valid |].
  rewrite source_coord_formula by lia. split; [reflexivity |].
  rewrite Hcov. pose proof PI_RGT_0 as Hpi.
  assert (HW : (0 < IZR (shape1 img_in))%R) by (apply IZR_lt; lia).
  set (v := (_ + IZR (x_center img_in))%R).
  assert (Hv : v = (IZR t - IZR (shape1 img_in) / 2
                    + IZR (shape1 img_in / 2))%R).
  { unfold v, x_center. field. split; lra. }
  pose proof (half_bounds (shape1 img_in)) as Hhalf.
  assert (Hlo : t - 1 <= py_int v).
  { apply Z.le_trans with (py_int (IZR (t - 1)));
      [now rewrite py_int_IZR |].
    apply py_int_monotone. rewrite minus_IZR. lra. }
  assert (Hhi : py_int v <= t).
  { apply Z.le_trans with (py_int (IZR t)); [| now rewrite py_int_IZR].
    apply py_int_monotone. lra. }
  assert (H0 : 0 <= py_int v).
  { apply py_int_nonneg_arg.
    assert (Ht0 : (0 <= IZR t)%R) by (apply IZR_le; lia). lra. }
  lia.
Qed.

Lemma full_coverage_columns_witness :
  exists d x y,
    diameter [[white; black; white]] (PyFloat 1) = Ok d /\
    source_coord [[white; black; white]] d 2 1 = Ok (x, y) /\
    2 - 1 <= x <= 2 /\ 0 <= x < shape1 [[white; black; white]].
Proof.
  apply (full_coverage_columns [[white; black; white]] (PyFloat 1) 2 1).
  - reflexivity.
  - simpl. lia.
Defined.

(** ** The file driver, further *)







(** ** Black margins *)



